(** * degrees.py: six degrees of separation by breadth-first search

    A shallow embedding of [src/degrees/degrees.py]: the search [Node], the
    two frontiers, the three global tables filled by [load_data], the name
    lookup [person_id_for_name], [neighbors_for_person] and the breadth-first
    [shortest_path], followed by the properties proved about them.

    Modelling choices.
    - Python [dict]s are [gmap]s and Python [set]s are [gset]s.  The order in
      which Python iterates over a set is not fixed by the language, so every
      function that iterates over a set takes an [iteration_order]; all
      theorems hold for every order that lists exactly the elements of the
      set.
    - The three module-level dictionaries are gathered in a [store] record
      that is passed explicitly; a function that mutates one of them returns
      the new store.
    - An exception is a value of type [exn]; a call that may raise returns a
      [res].
    - The [while True] loop of [shortest_path] is run with a bound on the
      number of iterations (fuel); [None] means that the bound was reached.
      Termination is proved separately. *)

From stdpp Require Import gmap strings list pretty.
From Stdlib Require Import Ascii.

Set Warnings "-register-all,-clear-no-such-hyp".

(** ** Exceptions and results *)

Inductive exn :=
  | KeyError (key : string)          (* dict lookup, or pop from an empty set *)
  | EmptyFrontier                    (* Exception("empty frontier") *)
  | EOFError.                        (* input() at end of input *)

Inductive res (A : Type) :=
  | Ret (a : A)
  | Raise (e : exn).
Arguments Ret {A} a.
Arguments Raise {A} e.

#[global] Instance res_ret : MRet res := fun A a => Ret a.
#[global] Instance res_bind : MBind res := fun A B k r =>
  match r with
  | Ret a => k a
  | Raise e => Raise e
  end.

(** [d[k]] on a dictionary. *)
Definition getitem {V} (d : gmap string V) (k : string) : res V :=
  match d !! k with
  | Some v => Ret v
  | None => Raise (KeyError k)
  end.

(** ** Node *)

Inductive Node :=
  | mkNode (state : string) (parent : option Node) (action : option string).

Definition state (n : Node) : string := let 'mkNode s _ _ := n in s.
Definition parent (n : Node) : option Node := let 'mkNode _ p _ := n in p.
Definition action (n : Node) : option string := let 'mkNode _ _ a := n in a.

(** ** Frontiers *)

Module StackFrontier.

Record t := mk { frontier : list Node }.

Definition init : t := mk [].

Definition add (self : t) (node : Node) : t :=
  mk (frontier self ++ [node]).

Definition contains_state (self : t) (s : string) : bool :=
  existsb (fun node => String.eqb (state node) s) (frontier self).

Definition empty (self : t) : bool :=
  Nat.eqb (List.length (frontier self)) 0.

(** [frontier[-1]] and [frontier[:-1]]. *)
Definition remove (self : t) : res (Node * t) :=
  if empty self then Raise EmptyFrontier
  else
    match last (frontier self) with
    | Some node => Ret (node, mk (removelast (frontier self)))
    | None => Raise EmptyFrontier
    end.

End StackFrontier.

Module QueueFrontier.

(** [class QueueFrontier(StackFrontier)]: same data, [add],
    [contains_state] and [empty] are inherited, [remove] is overridden. *)
Definition t := StackFrontier.t.
Definition mk := StackFrontier.mk.
Definition frontier := StackFrontier.frontier.
Definition init : t := StackFrontier.init.
Definition add := StackFrontier.add.
Definition contains_state := StackFrontier.contains_state.
Definition empty := StackFrontier.empty.

(** [frontier[0]] and [frontier[1:]]. *)
Definition remove (self : t) : res (Node * t) :=
  if empty self then Raise EmptyFrontier
  else
    match frontier self with
    | node :: rest => Ret (node, mk rest)
    | [] => Raise EmptyFrontier
    end.

End QueueFrontier.

(** ** The tables *)

Record person := mkPerson {
  person_name : string;
  person_birth : string;
  person_movies : gset string
}.

Record movie := mkMovie {
  movie_title : string;
  movie_year : string;
  movie_stars : gset string
}.

Record store := mkStore {
  names : gmap string (gset string);
  people : gmap string person;
  movies : gmap string movie
}.

(** The module-level [names = {}], [people = {}], [movies = {}]. *)
Definition empty_store : store := mkStore ∅ ∅ ∅.

(** Iteration over a Python set. *)
Record iteration_order := mkOrder {
  iter_ids : gset string → list string;
  iter_pairs : gset (string * string) → list (string * string)
}.

(** An order is faithful when it visits each element of the set once. *)
Definition faithful (o : iteration_order) : Prop :=
  (∀ s, iter_ids o s ≡ₚ elements s) ∧ (∀ s, iter_pairs o s ≡ₚ elements s).

Definition canonical_order : iteration_order :=
  mkOrder elements elements.

(** ** load_data *)

(** [str.lower], on the ASCII letters. *)
Definition lower_ascii (c : ascii) : ascii :=
  let n := nat_of_ascii c in
  if (65 <=? n)%nat && (n <=? 90)%nat then ascii_of_nat (n + 32) else c.

Fixpoint lower (s : string) : string :=
  match s with
  | EmptyString => EmptyString
  | String c rest => String (lower_ascii c) (lower rest)
  end.

(** The rows [csv.DictReader] yields for the three files. *)
Record people_row := mkPeopleRow { pr_id : string; pr_name : string; pr_birth : string }.
Record movies_row := mkMoviesRow { mr_id : string; mr_title : string; mr_year : string }.
Record stars_row := mkStarsRow { sr_person_id : string; sr_movie_id : string }.

Definition load_person (st : store) (row : people_row) : store :=
  let people' := <[pr_id row := mkPerson (pr_name row) (pr_birth row) ∅]> (people st) in
  let key := lower (pr_name row) in
  let names' :=
    match names st !! key with
    | None => <[key := {[pr_id row]}]> (names st)
    | Some ids => <[key := ids ∪ {[pr_id row]}]> (names st)
    end in
  mkStore names' people' (movies st).

Definition load_movie (st : store) (row : movies_row) : store :=
  mkStore (names st) (people st)
          (<[mr_id row := mkMovie (mr_title row) (mr_year row) ∅]> (movies st)).

(** The body of the [try]: two statements, each of which may raise
    [KeyError]; the first one has already updated [people] when the second
    one raises.  The [except KeyError: pass] keeps the store as it is at
    that point. *)
Definition load_star (st : store) (row : stars_row) : store :=
  match people st !! sr_person_id row with
  | None => st
  | Some p =>
      let p' := mkPerson (person_name p) (person_birth p)
                         (person_movies p ∪ {[sr_movie_id row]}) in
      let st1 := mkStore (names st) (<[sr_person_id row := p']> (people st)) (movies st) in
      match movies st1 !! sr_movie_id row with
      | None => st1
      | Some m =>
          let m' := mkMovie (movie_title m) (movie_year m)
                            (movie_stars m ∪ {[sr_person_id row]}) in
          mkStore (names st1) (people st1) (<[sr_movie_id row := m']> (movies st1))
      end
  end.

Definition load_data_from (st : store)
    (people_csv : list people_row) (movies_csv : list movies_row)
    (stars_csv : list stars_row) : store :=
  let st1 := foldl load_person st people_csv in
  let st2 := foldl load_movie st1 movies_csv in
  foldl load_star st2 stars_csv.

Definition load_data := load_data_from empty_store.

(** ** person_id_for_name *)

(** What the function reads and writes besides its argument: the tables,
    the lines still to be read by [input] and what has been written by
    [print] and by the prompt of [input] (one entry per call). *)
Record world := mkWorld {
  w_store : store;
  w_stdin : list string;
  w_stdout : list string
}.

Definition print (w : world) (line : string) : world :=
  mkWorld (w_store w) (w_stdin w) (w_stdout w ++ [line]).

(** [input(prompt)]. *)
Definition input (w : world) (prompt : string) : res string * world :=
  let w1 := print w prompt in
  match w_stdin w1 with
  | [] => (Raise EOFError, w1)
  | line :: rest => (Ret line, mkWorld (w_store w1) rest (w_stdout w1))
  end.

(** [s.pop()] on a set: some element is removed and returned. *)
Definition set_pop (o : iteration_order) (s : gset string) : res (string * gset string) :=
  match iter_ids o s with
  | [] => Raise (KeyError "pop from an empty set")
  | x :: _ => Ret (x, s ∖ {[x]})
  end.

(** The [for person_id in names[name]] loop that lists the candidates. *)
Fixpoint print_candidates (w : world) (ids : list string) : res unit * world :=
  match ids with
  | [] => (Ret (), w)
  | person_id :: rest =>
      match getitem (people (w_store w)) person_id with
      | Raise e => (Raise e, w)
      | Ret p =>
          print_candidates
            (print w ("ID: " ++ person_id ++ ", Name: " ++ person_name p
                      ++ ", Birth: " ++ person_birth p))
            rest
      end
  end.

Definition person_id_for_name (o : iteration_order) (w : world) (name : string)
  : res (option string) * world :=
  let name := lower name in
  match names (w_store w) !! name with
  | None => (Ret None, w)
  | Some ids =>
      if decide (1 < size ids) then
        let w1 := print w ("Which '" ++ name ++ "'?") in
        match print_candidates w1 (iter_ids o ids) with
        | (Raise e, w2) => (Raise e, w2)
        | (Ret _, w2) =>
            match input w2 "Enter ID number: " with
            | (Raise e, w3) => (Raise e, w3)
            | (Ret person_id, w3) =>
                if decide (person_id ∈ ids) then (Ret (Some person_id), w3)
                else (Ret None, w3)
            end
        end
      else
        match set_pop o ids with
        | Raise e => (Raise e, w)
        | Ret (person_id, ids') =>
            let st := w_store w in
            (Ret (Some person_id),
             mkWorld (mkStore (<[name := ids']> (names st)) (people st) (movies st))
                     (w_stdin w) (w_stdout w))
        end
  end.

(** ** neighbors_for_person *)

(** The inner loop: [for person_id in movies[movie_id]["stars"]]. *)
Definition add_stars (movie_id : string) (stars : list string)
    (neighbors : gset (string * string)) : gset (string * string) :=
  foldl (fun nb person_id => nb ∪ {[(movie_id, person_id)]}) neighbors stars.

(** The outer loop: [for movie_id in movie_ids]. *)
Fixpoint for_movies (o : iteration_order) (st : store) (movie_ids : list string)
    (neighbors : gset (string * string)) : res (gset (string * string)) :=
  match movie_ids with
  | [] => Ret neighbors
  | movie_id :: rest =>
      m ← getitem (movies st) movie_id;
      for_movies o st rest (add_stars movie_id (iter_ids o (movie_stars m)) neighbors)
  end.

Definition neighbors_for_person (o : iteration_order) (st : store) (person_id : string)
  : res (gset (string * string)) :=
  p ← getitem (people st) person_id;
  for_movies o st (iter_ids o (person_movies p)) ∅.

(** ** shortest_path *)

(** A hop of the returned path: [(child.action, child.state)]. *)
Abbreviation hop := (option string * string)%type.

(** [while child.parent is not None: path.append(...); child = child.parent] *)
Fixpoint walk_back (child : Node) (path : list hop) : list hop :=
  match child with
  | mkNode s None _ => path
  | mkNode s (Some p) a => walk_back p (path ++ [(a, s)])
  end.

Definition solution (child : Node) : list hop := reverse (walk_back child []).

(** The [for movie_id, person_id in neighbors_for_person(node.state)] loop:
    [inl path] when the [return path] inside it is reached, [inr frontier]
    when the loop runs to its end. *)
Fixpoint expand (target_id : string) (node : Node) (neighbors : list (string * string))
    (frontier : QueueFrontier.t) (explored : gset string)
  : list hop + QueueFrontier.t :=
  match neighbors with
  | [] => inr frontier
  | (movie_id, person_id) :: rest =>
      if negb (QueueFrontier.contains_state frontier person_id)
         && negb (bool_decide (person_id ∈ explored))
      then
        let child := mkNode person_id (Some node) (Some movie_id) in
        if String.eqb (state child) target_id then inl (solution child)
        else expand target_id node rest (QueueFrontier.add frontier child) explored
      else expand target_id node rest frontier explored
  end.

(** One pass through the body of [while True]. *)
Inductive iteration :=
  | Return (r : option (list hop))
  | Raised (e : exn)
  | Continue (frontier : QueueFrontier.t) (explored : gset string).

Definition iterate (o : iteration_order) (st : store) (target_id : string)
    (frontier : QueueFrontier.t) (explored : gset string) : iteration :=
  if QueueFrontier.empty frontier then Return None
  else
    match QueueFrontier.remove frontier with
    | Raise e => Raised e
    | Ret (node, frontier) =>
        let explored := explored ∪ {[state node]} in
        match neighbors_for_person o st (state node) with
        | Raise e => Raised e
        | Ret neighbors =>
            match expand target_id node (iter_pairs o neighbors) frontier explored with
            | inl path => Return (Some path)
            | inr frontier => Continue frontier explored
            end
        end
    end.

(** The loop, for at most [fuel] iterations. *)
Fixpoint search (o : iteration_order) (st : store) (target_id : string) (fuel : nat)
    (frontier : QueueFrontier.t) (explored : gset string)
  : option (res (option (list hop))) :=
  match fuel with
  | O => None
  | S fuel =>
      match iterate o st target_id frontier explored with
      | Return r => Some (Ret r)
      | Raised e => Some (Raise e)
      | Continue frontier explored => search o st target_id fuel frontier explored
      end
  end.

Definition start_frontier (source_id : string) : QueueFrontier.t :=
  QueueFrontier.add QueueFrontier.init (mkNode source_id None None).

Definition shortest_path (o : iteration_order) (st : store) (fuel : nat)
    (source_id target_id : string) : option (res (option (list hop))) :=
  search o st target_id fuel (start_frontier source_id) ∅.

(** The frontier and explored set at the head of the loop after [n] full
    iterations, when the run gets that far. *)
Fixpoint loop_state (o : iteration_order) (st : store) (target_id : string) (n : nat)
    (frontier : QueueFrontier.t) (explored : gset string)
  : option (QueueFrontier.t * gset string) :=
  match n with
  | O => Some (frontier, explored)
  | S n =>
      match iterate o st target_id frontier explored with
      | Continue frontier explored => loop_state o st target_id n frontier explored
      | _ => None
      end
  end.

(** ** A fixture *)

Definition fixture_people : list people_row :=
  [ mkPeopleRow "1" "Ann" "1960"; mkPeopleRow "2" "Bob" "1961";
    mkPeopleRow "3" "Cy" "1962"; mkPeopleRow "4" "Dee" "1963";
    mkPeopleRow "5" "Eve" "1964"; mkPeopleRow "6" "Fay" "1965";
    mkPeopleRow "7" "Ann" "1970"; mkPeopleRow "8" "Gus" "1971" ].

Definition fixture_movies : list movies_row :=
  [ mkMoviesRow "10" "AB" "2000"; mkMoviesRow "11" "BC" "2001";
    mkMoviesRow "12" "CD" "2002"; mkMoviesRow "13" "AE" "2003";
    mkMoviesRow "14" "EF" "2004" ].

Definition fixture_stars : list stars_row :=
  [ mkStarsRow "1" "10"; mkStarsRow "2" "10"; mkStarsRow "2" "11";
    mkStarsRow "3" "11"; mkStarsRow "3" "12"; mkStarsRow "4" "12";
    mkStarsRow "1" "13"; mkStarsRow "5" "13"; mkStarsRow "5" "14";
    mkStarsRow "6" "14" ].

Definition fixture : store := load_data fixture_people fixture_movies fixture_stars.

(** ** The graph the search walks *)

(** [w] stars in a movie [m] of [v]: the pairs [(m, w)] that
    [neighbors_for_person v] collects. *)
Definition edge (st : store) (v m w : string) : Prop :=
  ∃ p mv, people st !! v = Some p ∧ m ∈ person_movies p
          ∧ movies st !! m = Some mv ∧ w ∈ movie_stars mv.

Definition edgeb (st : store) (v m w : string) : bool :=
  match people st !! v, movies st !! m with
  | Some p, Some mv => bool_decide (m ∈ person_movies p) && bool_decide (w ∈ movie_stars mv)
  | _, _ => false
  end.

(** [walk st u k w]: from [u], [k] movie-hops lead to [w]. *)
Inductive walk (st : store) (u : string) : nat → string → Prop :=
  | walk_here : walk st u 0 u
  | walk_hop k v m w : walk st u k v → edge st v m w → walk st u (S k) w.

Definition reachable (st : store) (v w : string) : Prop := ∃ k, walk st v k w.

(** The graph distance: the least number of hops of a walk. *)
Definition is_distance (st : store) (v w : string) (d : nat) : Prop :=
  walk st v d w ∧ ∀ k, walk st v k w → d ≤ k.

(** A returned path read as a walk: every hop carries a movie that links
    the previous person to the next one. *)
Fixpoint path_walk (st : store) (cur : string) (path : list hop) (target : string) : Prop :=
  match path with
  | [] => cur = target
  | (a, q) :: rest => (∃ m, a = Some m ∧ edge st cur m q) ∧ path_walk st q rest target
  end.

(** Every id stored in a set of one table is a key of the other table. *)
Definition consistent (st : store) : Prop :=
  map_Forall (fun _ p => set_Forall (fun m => is_Some (movies st !! m)) (person_movies p))
             (people st)
  ∧ map_Forall (fun _ mv => set_Forall (fun q => is_Some (people st !! q)) (movie_stars mv))
               (movies st).

#[global] Instance consistent_dec st : Decision (consistent st).
Proof. unfold consistent. apply _. Defined.

(** ** Nodes and their chains of parents *)

Fixpoint depth (n : Node) : nat :=
  match n with
  | mkNode _ None _ => 0
  | mkNode _ (Some p) _ => S (depth p)
  end.

(** The state of the node at the end of the chain of parents. *)
Fixpoint root_state (n : Node) : string :=
  match n with
  | mkNode s None _ => s
  | mkNode _ (Some p) _ => root_state p
  end.

(** The states of the nodes that have a parent, from [n] upwards. *)
Fixpoint hop_states (n : Node) : list string :=
  match n with
  | mkNode _ None _ => []
  | mkNode s (Some p) _ => s :: hop_states p
  end.

(** The states of the nodes above [n]. *)
Fixpoint ancestors (n : Node) : list string :=
  match n with
  | mkNode _ None _ => []
  | mkNode _ (Some p) _ => state p :: ancestors p
  end.

Definition states (f : QueueFrontier.t) : list string :=
  map state (QueueFrontier.frontier f).

(** ** Sequences of frontier operations *)

Inductive op :=
  | Add (node : Node)
  | Remove.

(** The nodes handed to [add], in order. *)
Fixpoint added (ops : list op) : list Node :=
  match ops with
  | [] => []
  | Add node :: rest => node :: added rest
  | Remove :: rest => added rest
  end.

(** Runs the operations on a queue frontier and collects what the calls of
    [remove] return, up to the first call that raises. *)
Fixpoint run_queue (ops : list op) (f : QueueFrontier.t) (out : list Node)
  : list Node * res QueueFrontier.t :=
  match ops with
  | [] => (out, Ret f)
  | Add node :: rest => run_queue rest (QueueFrontier.add f node) out
  | Remove :: rest =>
      match QueueFrontier.remove f with
      | Ret (node, f') => run_queue rest f' (out ++ [node])
      | Raise e => (out, Raise e)
      end
  end.

(** ** Invariants of the search *)

(** A node made by [Node(state=person_id, parent=node, action=movie_id)]
    for a pair of the listed neighbours. *)
Definition child_of (node : Node) (neighbors : list (string * string)) (c : Node) : Prop :=
  ∃ m q, c = mkNode q (Some node) (Some m) ∧ (m, q) ∈ neighbors.

(** The frontier holds each state once and none that is explored; every
    node hangs below the root, under explored states that are distinct. *)
Definition tidy (source_id : string) (fr : QueueFrontier.t) (ex : gset string) : Prop :=
  NoDup (states fr)
  ∧ (∀ q, q ∈ states fr → q ∉ ex)
  ∧ Forall (fun n => root_state n = source_id
                     ∧ NoDup (ancestors n)
                     ∧ ∀ q, q ∈ ancestors n → q ∈ ex)
           (QueueFrontier.frontier fr).

(** The node was built by following edges of the graph from the source. *)
Inductive rooted (st : store) (source_id : string) : Node → Prop :=
  | rooted_root : rooted st source_id (mkNode source_id None None)
  | rooted_child p m q :
      rooted st source_id p → edge st (state p) m q →
      rooted st source_id (mkNode q (Some p) (Some m)).

(** The depths in the frontier: some at depth [d], followed by some at
    depth [d + 1]. *)
Definition levels (d : nat) (l : list Node) : Prop :=
  ∃ front back, l = front ++ back
                ∧ Forall (fun n => depth n = d) front
                ∧ Forall (fun n => depth n = S d) back.

(** The node is the end of a walk from the source that no walk beats. *)
Definition shortest (st : store) (source_id : string) (n : Node) : Prop :=
  rooted st source_id n ∧ ∀ k, walk st source_id k (state n) → depth n ≤ k.

(** The invariant of breadth-first search at the head of the loop: the
    frontier holds ends of shortest walks in level order, every edge out of
    an explored state leads to a state that has been seen, the source has
    been seen and the target has not. *)
Definition bfs_inv (st : store) (source_id target_id : string)
    (fr : QueueFrontier.t) (ex : gset string) : Prop :=
  Forall (shortest st source_id) (QueueFrontier.frontier fr)
  ∧ (∃ d, levels d (QueueFrontier.frontier fr))
  ∧ (∀ v, v ∈ ex → ∀ m w, edge st v m w → w ∈ ex ∨ w ∈ states fr)
  ∧ (source_id ∈ ex ∨ source_id ∈ states fr)
  ∧ (source_id ≠ target_id → (target_id ∉ ex) ∧ (target_id ∉ states fr)).

(** Every state in the frontier or in the explored set is a key of
    [people]. *)
Definition known (st : store) (source_id : string)
    (fr : QueueFrontier.t) (ex : gset string) : Prop :=
  tidy source_id fr ex
  ∧ Forall (fun q => is_Some (people st !! q)) (states fr)
  ∧ ∀ q, q ∈ ex → is_Some (people st !! q).

(** ** More fixtures *)

Definition fixture_world : world := mkWorld fixture [] [].

(** Files in which the last row of stars.csv names a known person and a
    movie that is not in movies.csv. *)
Definition dangling_people : list people_row :=
  [ mkPeopleRow "1" "Ann" "1960"; mkPeopleRow "2" "Bob" "1961" ].

Definition dangling_movies : list movies_row :=
  [ mkMoviesRow "10" "AB" "2000" ].

Definition dangling_stars : list stars_row :=
  [ mkStarsRow "1" "10"; mkStarsRow "2" "10"; mkStarsRow "1" "99" ].

Definition dangling : store := load_data dangling_people dangling_movies dangling_stars.

(** No row of stars.csv names a known person together with an unknown
    movie. *)
Definition clean_stars (people_csv : list people_row) (movies_csv : list movies_row)
    (stars_csv : list stars_row) : Prop :=
  Forall (fun row => sr_person_id row ∈ map pr_id people_csv →
                     sr_movie_id row ∈ map mr_id movies_csv) stars_csv.


(** ** Reading the tables *)

(** [people[p]["movies"]], [movies[m]["stars"]] and [names[k]], with the
    empty set for a missing key. *)
Definition movies_of (st : store) (p : string) : gset string :=
  match people st !! p with
  | Some per => person_movies per
  | None => ∅
  end.

Definition stars_of (st : store) (m : string) : gset string :=
  match movies st !! m with
  | Some mv => movie_stars mv
  | None => ∅
  end.



(** Another iteration order: the elements from last to first. *)
Definition reversed_order : iteration_order :=
  mkOrder (fun s => reverse (elements s)) (fun s => reverse (elements s)).

(** ** The main program *)





(** ** Sequences of operations on a stack frontier *)

(** As [run_queue], for the stack discipline. *)
Fixpoint run_stack (ops : list op) (f : StackFrontier.t) (out : list Node)
  : list Node * res StackFrontier.t :=
  match ops with
  | [] => (out, Ret f)
  | Add node :: rest => run_stack rest (StackFrontier.add f node) out
  | Remove :: rest =>
      match StackFrontier.remove f with
      | Ret (node, f') => run_stack rest f' (out ++ [node])
      | Raise e => (out, Raise e)
      end
  end.

(** * Properties *)

(** ** Frontiers *)

Lemma frontier_empty_nil (f : StackFrontier.t) :
  StackFrontier.empty f = true ↔ StackFrontier.frontier f = [].
Proof.
  unfold StackFrontier.empty. destruct (StackFrontier.frontier f); simpl; split; congruence.
Qed.

Lemma queue_remove_cons (f : QueueFrontier.t) node rest :
  QueueFrontier.frontier f = node :: rest →
  QueueFrontier.remove f = Ret (node, QueueFrontier.mk rest).
Proof.
  intros Hf. unfold QueueFrontier.remove, QueueFrontier.empty, StackFrontier.empty.
  unfold QueueFrontier.frontier in *. by rewrite Hf.
Qed.

Lemma queue_remove_nil (f : QueueFrontier.t) :
  QueueFrontier.frontier f = [] → QueueFrontier.remove f = Raise EmptyFrontier.
Proof.
  intros Hf. unfold QueueFrontier.remove, QueueFrontier.empty, StackFrontier.empty.
  unfold QueueFrontier.frontier in *. by rewrite Hf.
Qed.

Lemma queue_remove_Ret (f f' : QueueFrontier.t) node :
  QueueFrontier.remove f = Ret (node, f') →
  QueueFrontier.frontier f = node :: QueueFrontier.frontier f'.
Proof.
  destruct (QueueFrontier.frontier f) as [|n rest] eqn:Hf.
  - by rewrite (queue_remove_nil _ Hf).
  - rewrite (queue_remove_cons _ _ _ Hf). by intros [= <- <-].
Qed.

Lemma contains_state_elem (f : QueueFrontier.t) (s : string) :
  QueueFrontier.contains_state f s = true ↔ s ∈ states f.
Proof.
  unfold QueueFrontier.contains_state, StackFrontier.contains_state, states,
    QueueFrontier.frontier.
  rewrite existsb_exists, list_elem_of_fmap. split.
  - intros (n & Hn & Heq). apply String.eqb_eq in Heq. exists n.
    split; [done | by apply list_elem_of_In].
  - intros (n & -> & Hn). exists n. split; [by apply list_elem_of_In | apply String.eqb_refl].
Qed.

(** C9. [remove] on an empty frontier raises the "empty frontier" exception,
    for the stack and for the queue discipline alike; no node is returned. *)
Theorem remove_empty_raises (f : StackFrontier.t) :
  StackFrontier.empty f = true →
  StackFrontier.remove f = Raise EmptyFrontier
  ∧ QueueFrontier.remove f = Raise EmptyFrontier.
Proof.
  intros He. unfold StackFrontier.remove, QueueFrontier.remove, QueueFrontier.empty.
  by rewrite He.
Qed.

Lemma remove_empty_raises_witness :
  StackFrontier.empty StackFrontier.init = true
  ∧ StackFrontier.remove StackFrontier.init = Raise EmptyFrontier
  ∧ QueueFrontier.remove StackFrontier.init = Raise EmptyFrontier.
Proof. split; [reflexivity | apply (remove_empty_raises StackFrontier.init); reflexivity]. Defined.

Lemma run_queue_fifo (ops : list op) : ∀ (f : QueueFrontier.t) (out : list Node),
  match run_queue ops f out with
  | (out', Ret f') =>
      out' ++ QueueFrontier.frontier f' = out ++ QueueFrontier.frontier f ++ added ops
  | (out', Raise e) =>
      e = EmptyFrontier
      ∧ ∃ before after, ops = before ++ Remove :: after
                        ∧ out' = out ++ QueueFrontier.frontier f ++ added before
  end.
Proof.
  induction ops as [|[node|] ops IH]; intros f out; simpl.
  - by rewrite app_nil_r.
  - specialize (IH (QueueFrontier.add f node) out).
    destruct (run_queue ops (QueueFrontier.add f node) out) as [out' [f'|e]].
    + rewrite IH. simpl. by rewrite <- app_assoc.
    + destruct IH as (-> & before & after & -> & ->). split; [done|].
      exists (Add node :: before), after. simpl. by rewrite <- app_assoc.
  - destruct (QueueFrontier.frontier f) as [|n rest] eqn:Hf.
    + rewrite (queue_remove_nil _ Hf). split; [done|].
      exists [], ops. simpl. by rewrite app_nil_r.
    + rewrite (queue_remove_cons _ _ _ Hf).
      specialize (IH (QueueFrontier.mk rest) (out ++ [n])).
      destruct (run_queue ops (QueueFrontier.mk rest) (out ++ [n])) as [out' [f'|e]].
      * rewrite IH. simpl. by rewrite <- app_assoc.
      * destruct IH as (-> & before & after & -> & ->). split; [done|].
        exists (Remove :: before), after. simpl. by rewrite <- app_assoc.
Qed.

(** C7. A queue frontier is first-in-first-out.  Each [remove] returns the
    node at the head of the nodes still held, which are kept in the order of
    their [add]; and for every sequence of [add]s and [remove]s run on a new
    queue frontier, the removed nodes followed by the nodes still held are
    the added nodes in the order they were added.  When a [remove] finds the
    frontier empty, all the nodes added before it have been returned, in
    the order they were added. *)
Theorem queue_frontier_fifo :
  (∀ (f f' : QueueFrontier.t) node,
      QueueFrontier.remove f = Ret (node, f') →
      QueueFrontier.frontier f = node :: QueueFrontier.frontier f')
  ∧ (∀ (f : QueueFrontier.t) node,
      QueueFrontier.frontier (QueueFrontier.add f node) = QueueFrontier.frontier f ++ [node])
  ∧ ∀ ops : list op,
      match run_queue ops QueueFrontier.init [] with
      | (out, Ret f) => out ++ QueueFrontier.frontier f = added ops
      | (out, Raise e) =>
          e = EmptyFrontier
          ∧ ∃ before after, ops = before ++ Remove :: after ∧ out = added before
      end.
Proof.
  split; [apply queue_remove_Ret|]. split; [done|].
  intros ops. pose proof (run_queue_fifo ops QueueFrontier.init []) as H.
  by destruct (run_queue ops QueueFrontier.init []) as [out [f|e]].
Qed.

Lemma queue_frontier_fifo_witness :
  let a := mkNode "a" None None in
  let b := mkNode "b" (Some a) (Some "m") in
  let c := mkNode "c" (Some a) (Some "n") in
  let ops := [Add a; Add b; Remove; Add c; Remove] in
  run_queue ops QueueFrontier.init [] = ([a; b], Ret (QueueFrontier.mk [c]))
  ∧ [a; b] ++ [c] = added ops.
Proof.
  intros a b c ops. split; [reflexivity|].
  exact (proj2 (proj2 queue_frontier_fifo) ops).
Defined.

(** ** Nodes and the reconstruction of the path *)

Lemma Node_chain_ind (P : Node → Prop) :
  (∀ s a, P (mkNode s None a)) →
  (∀ s p a, P p → P (mkNode s (Some p) a)) →
  ∀ n, P n.
Proof.
  intros Hroot Hchild. fix IH 1. intros [s [p|] a].
  - apply Hchild, IH.
  - apply Hroot.
Qed.

Lemma walk_back_app (n : Node) : ∀ acc, walk_back n acc = acc ++ walk_back n [].
Proof.
  induction n as [s a|s p a IH] using Node_chain_ind; intros acc; simpl.
  - by rewrite app_nil_r.
  - rewrite (IH (acc ++ _)), (IH [_]). by rewrite <- app_assoc.
Qed.

Lemma solution_root s a : solution (mkNode s None a) = [].
Proof. done. Qed.

Lemma solution_child s p a : solution (mkNode s (Some p) a) = solution p ++ [(a, s)].
Proof.
  unfold solution. simpl. by rewrite walk_back_app, reverse_app.
Qed.

Lemma solution_length (n : Node) : length (solution n) = depth n.
Proof.
  induction n as [s a|s p a IH] using Node_chain_ind; [done|].
  rewrite solution_child, length_app, IH. simpl. lia.
Qed.

Lemma solution_states (n : Node) : map snd (solution n) = reverse (hop_states n).
Proof.
  induction n as [s a|s p a IH] using Node_chain_ind; [done|].
  rewrite solution_child, map_app, IH. simpl. by rewrite reverse_cons.
Qed.

Lemma chain_hop_states (n : Node) :
  state n :: ancestors n = hop_states n ++ [root_state n].
Proof.
  induction n as [s a|s p a IH] using Node_chain_ind; [done|].
  simpl. by rewrite IH.
Qed.

(** ** The loop over the neighbours *)

Lemma child_of_cons node pair neighbors c :
  child_of node neighbors c → child_of node (pair :: neighbors) c.
Proof. intros (m & q & -> & Hin). exists m, q. split; [done | by right]. Qed.

Lemma states_add (f : QueueFrontier.t) (c : Node) :
  states (QueueFrontier.add f c) = states f ++ [state c].
Proof. unfold states. simpl. by rewrite map_app. Qed.

Lemma expand_spec target_id node explored : ∀ neighbors frontier,
  ∃ kids,
    Forall (child_of node neighbors) kids
    ∧ NoDup (map state kids)
    ∧ (∀ c, c ∈ kids →
         (state c ∉ explored) ∧ (state c ∉ states frontier) ∧ state c ≠ target_id)
    ∧ match expand target_id node neighbors frontier explored with
      | inr frontier' =>
          QueueFrontier.frontier frontier' = QueueFrontier.frontier frontier ++ kids
          ∧ ∀ m q, (m, q) ∈ neighbors →
                   q ∈ explored ∨ q ∈ states frontier ∨ q ∈ map state kids
      | inl path =>
          ∃ m, (m, target_id) ∈ neighbors
               ∧ (target_id ∉ explored) ∧ (target_id ∉ states frontier)
               ∧ path = solution (mkNode target_id (Some node) (Some m))
      end.
Proof.
  induction neighbors as [|[m q] rest IH]; intros fr; simpl.
  { exists []. refine (conj _ (conj _ (conj _ _))); [constructor | constructor | by intros c ?%elem_of_nil |].
    split; [by rewrite app_nil_r | by intros ?? ?%elem_of_nil]. }
  destruct (QueueFrontier.contains_state fr q) eqn:Hfr; simpl.
  { apply contains_state_elem in Hfr. destruct (IH fr) as (kids & Hk1 & Hk2 & Hk3 & Hk4).
    exists kids. refine (conj _ (conj Hk2 (conj Hk3 _))).
    - eapply Forall_impl; [done | intros c; apply child_of_cons].
    - destruct (expand _ _ rest fr _) as [path|fr'].
      + destruct Hk4 as (m' & ? & ?). exists m'. split; [by right | done].
      + destruct Hk4 as [? Hcov]. split; [done|].
        intros m' q' [[= -> ->]|Hin]%elem_of_cons; [by auto | by apply (Hcov m')]. }
  assert (q ∉ states fr) as Hq1.
  { rewrite <- contains_state_elem. by rewrite Hfr. }
  case_bool_decide as Hq2; simpl.
  { destruct (IH fr) as (kids & Hk1 & Hk2 & Hk3 & Hk4).
    exists kids. refine (conj _ (conj Hk2 (conj Hk3 _))).
    - eapply Forall_impl; [done | intros c; apply child_of_cons].
    - destruct (expand _ _ rest fr _) as [path|fr'].
      + destruct Hk4 as (m' & ? & ?). exists m'. split; [by right | done].
      + destruct Hk4 as [? Hcov]. split; [done|].
        intros m' q' [[= -> ->]|Hin]%elem_of_cons; [by auto | by apply (Hcov m')]. }
  destruct (String.eqb q target_id) eqn:Heq.
  { apply String.eqb_eq in Heq as ->.
    exists []. refine (conj _ (conj _ (conj _ _))); [constructor | constructor | by intros c ?%elem_of_nil |].
    exists m. split_and!; [by left | done | done | done]. }
  apply String.eqb_neq in Heq.
  set (child := mkNode q (Some node) (Some m)).
  destruct (IH (QueueFrontier.add fr child)) as (kids & Hk1 & Hk2 & Hk3 & Hk4).
  assert (q ∉ map state kids) as Hq3.
  { intros (c & Hc & Hin)%list_elem_of_fmap. destruct (Hk3 c Hin) as (_ & Hnot & _).
    apply Hnot. rewrite states_add, <- Hc. set_solver. }
  exists (child :: kids). refine (conj _ (conj _ (conj _ _))).
  - constructor.
    + exists m, q. split; [done | by left].
    + eapply Forall_impl; [done | intros c; apply child_of_cons].
  - simpl. by constructor.
  - intros c [->|Hin]%elem_of_cons; [done|].
    destruct (Hk3 c Hin) as (? & Hnot & ?). split_and!; [done| |done].
    intros ?. apply Hnot. rewrite states_add. set_solver.
  - destruct (expand _ _ rest _ _) as [path|fr'].
    + destruct Hk4 as (m' & ? & ? & Hnot & ?). exists m'.
      split_and!; [by right | done | | done].
      intros ?. apply Hnot. rewrite states_add. set_solver.
    + destruct Hk4 as [-> Hcov]. split.
      { simpl. by rewrite <- app_assoc. }
      intros m' q' [[= -> ->]|Hin]%elem_of_cons.
      * right; right. simpl. by left.
      * destruct (Hcov m' q' Hin) as [?|[Hin'|?]]; [by auto | | right; right; by right].
        rewrite states_add in Hin'. apply elem_of_app in Hin' as [?|Hin']; [by auto|].
        apply list_elem_of_singleton in Hin' as ->. right; right. simpl. by left.
Qed.

(** ** One iteration of the loop *)

Lemma iterate_spec o st target_id (frontier : QueueFrontier.t) explored :
  match iterate o st target_id frontier explored with
  | Return None => QueueFrontier.frontier frontier = []
  | Return (Some path) =>
      ∃ u rest nb m,
        QueueFrontier.frontier frontier = u :: rest
        ∧ neighbors_for_person o st (state u) = Ret nb
        ∧ (m, target_id) ∈ iter_pairs o nb
        ∧ (target_id ∉ explored ∪ {[state u]}) ∧ (target_id ∉ map state rest)
        ∧ path = solution (mkNode target_id (Some u) (Some m))
  | Raised e =>
      ∃ u rest,
        QueueFrontier.frontier frontier = u :: rest
        ∧ neighbors_for_person o st (state u) = Raise e
  | Continue frontier' explored' =>
      ∃ u rest nb kids,
        QueueFrontier.frontier frontier = u :: rest
        ∧ neighbors_for_person o st (state u) = Ret nb
        ∧ explored' = explored ∪ {[state u]}
        ∧ QueueFrontier.frontier frontier' = rest ++ kids
        ∧ Forall (child_of u (iter_pairs o nb)) kids
        ∧ NoDup (map state kids)
        ∧ (∀ c, c ∈ kids →
             (state c ∉ explored') ∧ (state c ∉ map state rest) ∧ state c ≠ target_id)
        ∧ (∀ m q, (m, q) ∈ iter_pairs o nb →
             q ∈ explored' ∨ q ∈ map state rest ∨ q ∈ map state kids)
  end.
Proof.
  unfold iterate.
  destruct (QueueFrontier.frontier frontier) as [|u rest] eqn:Hf.
  { assert (QueueFrontier.empty frontier = true) as -> by by apply frontier_empty_nil.
    done. }
  assert (QueueFrontier.empty frontier = false) as ->.
  { apply not_true_is_false. intros He%frontier_empty_nil.
    unfold QueueFrontier.frontier in Hf. congruence. }
  rewrite (queue_remove_cons _ _ _ Hf).
  destruct (neighbors_for_person o st (state u)) as [nb|e] eqn:Hnb; [|by exists u, rest].
  destruct (expand_spec target_id u (explored ∪ {[state u]}) (iter_pairs o nb)
              (QueueFrontier.mk rest)) as (kids & Hk1 & Hk2 & Hk3 & Hk4).
  destruct (expand _ _ _ _ _) as [path|fr'].
  - destruct Hk4 as (m & ? & ? & ? & ?). by exists u, rest, nb, m.
  - destruct Hk4 as [? ?]. by exists u, rest, nb, kids.
Qed.

(** Proof rule for the loop: a property of the frontier and the explored set
    that every iteration keeps holds whenever the loop is left. *)
Lemma search_inv o st target_id
    (I : QueueFrontier.t → gset string → Prop) (Q : res (option (list hop)) → Prop) :
  (∀ fr ex, I fr ex →
     match iterate o st target_id fr ex with
     | Return r => Q (Ret r)
     | Raised e => Q (Raise e)
     | Continue fr' ex' => I fr' ex'
     end) →
  ∀ fuel fr ex r, I fr ex → search o st target_id fuel fr ex = Some r → Q r.
Proof.
  intros Hstep. induction fuel as [|fuel IH]; intros fr ex r HI; simpl; [done|].
  specialize (Hstep fr ex HI).
  destruct (iterate o st target_id fr ex) as [r'|e|fr' ex'].
  - by intros [= <-].
  - by intros [= <-].
  - by apply IH.
Qed.

Lemma loop_state_inv o st target_id (I : QueueFrontier.t → gset string → Prop) :
  (∀ fr ex, I fr ex →
     match iterate o st target_id fr ex with
     | Continue fr' ex' => I fr' ex'
     | _ => True
     end) →
  ∀ n fr ex fr' ex',
    I fr ex → loop_state o st target_id n fr ex = Some (fr', ex') → I fr' ex'.
Proof.
  intros Hstep. induction n as [|n IH]; intros fr ex fr' ex' HI; simpl.
  { by intros [= <- <-]. }
  specialize (Hstep fr ex HI).
  destruct (iterate o st target_id fr ex) as [r'|e|fr1 ex1]; [done|done|].
  by apply IH.
Qed.

(** More fuel does not change a result. *)
Lemma search_fuel_mono o st target_id : ∀ fuel fuel' fr ex r,
  fuel ≤ fuel' →
  search o st target_id fuel fr ex = Some r → search o st target_id fuel' fr ex = Some r.
Proof.
  induction fuel as [|fuel IH]; intros [|fuel'] fr ex r Hle; simpl; [done|done|lia|].
  destruct (iterate o st target_id fr ex); [done|done|]. apply IH. lia.
Qed.

(** ** No state is visited twice *)

Lemma tidy_start source_id : tidy source_id (start_frontier source_id) ∅.
Proof.
  split; [|split].
  - apply NoDup_singleton.
  - intros q _. set_solver.
  - repeat constructor. by intros q ?%elem_of_nil.
Qed.

Lemma tidy_solution source_id u rest ex target_id m :
  tidy source_id (QueueFrontier.mk (u :: rest)) ex →
  target_id ∉ ex ∪ {[state u]} →
  let path := solution (mkNode target_id (Some u) (Some m)) in
  NoDup (map snd path) ∧ source_id ∉ map snd path.
Proof.
  intros (Hnd & Hdisj & Hnodes) Hnot path.
  apply Forall_cons in Hnodes as [(Hroot & Hanc & Hex) _].
  assert (NoDup (target_id :: state u :: ancestors u)) as Hchain.
  { constructor; [|constructor; [|done]].
    - intros [->|Hin]%elem_of_cons; [set_solver|]. apply Hex in Hin. set_solver.
    - intros Hin%Hex. apply (Hdisj (state u)); [|done]. unfold states. simpl. by left. }
  change (target_id :: state u :: ancestors u)
    with (state (mkNode target_id (Some u) (Some m))
          :: ancestors (mkNode target_id (Some u) (Some m))) in Hchain.
  rewrite chain_hop_states in Hchain. simpl root_state in Hchain. rewrite Hroot in Hchain.
  apply NoDup_app in Hchain as (Hhops & Hsrc & _).
  unfold path. rewrite solution_states. split.
  - by rewrite reverse_Permutation.
  - rewrite elem_of_reverse. intros Hin. apply (Hsrc _ Hin). by left.
Qed.

Lemma tidy_step o st source_id target_id fr ex :
  tidy source_id fr ex →
  match iterate o st target_id fr ex with
  | Return (Some path) => NoDup (map snd path) ∧ source_id ∉ map snd path
  | Continue fr' ex' => tidy source_id fr' ex'
  | _ => True
  end.
Proof.
  intros Htidy. pose proof (iterate_spec o st target_id fr ex) as Hspec.
  destruct (iterate o st target_id fr ex) as [[path|]|e|fr' ex']; [|done|done|].
  - destruct Hspec as (u & rest & nb & m & Hf & _ & _ & Hnot & _ & ->).
    apply (tidy_solution source_id u rest ex); [|done].
    destruct fr as [l]. simpl in Hf. by subst l.
  - destruct Hspec as (u & rest & nb & kids & Hf & _ & -> & Hf' & Hkids & Hnd & Hfresh & _).
    destruct Htidy as (Hnd0 & Hdisj & Hnodes).
    unfold tidy, states in *. unfold QueueFrontier.frontier in *. rewrite Hf in *. rewrite Hf'.
    simpl in Hnd0, Hdisj. apply NoDup_cons in Hnd0 as [Hu Hrest].
    apply Forall_cons in Hnodes as [(Hroot & Hanc & Hex) Hnodes].
    split; [|split].
    + rewrite map_app. apply NoDup_app. split; [done|]. split; [|done].
      intros q Hq (c & -> & Hc)%list_elem_of_fmap. by destruct (Hfresh c Hc) as (_ & ? & _).
    + rewrite map_app. intros q [Hq|(c & -> & Hc)%list_elem_of_fmap]%elem_of_app.
      * assert (q ≠ state u) by (by intros ->).
        assert (q ∉ ex) by (apply Hdisj; by right). set_solver.
      * by destruct (Hfresh c Hc) as (? & _).
    + apply Forall_app. split.
      * eapply Forall_impl; [done|]. intros n (? & ? & Hn). split; [done|]. split; [done|].
        intros q Hq. apply Hn in Hq. set_solver.
      * eapply Forall_impl; [done|]. intros c (m & q & -> & _). simpl.
        split; [done|]. split.
        -- constructor; [|done]. intros Hin%Hex. apply (Hdisj (state u)); [by left | done].
        -- intros q' [->|Hin]%elem_of_cons; [set_solver|]. apply Hex in Hin. set_solver.
Qed.

(** C8. In every run of [shortest_path] the node taken from the frontier
    has a state that is not in the explored set yet, so no state enters the
    explored set twice; and the persons of a returned path are pairwise
    distinct and differ from the source. *)
Theorem no_state_explored_twice o st source_id target_id :
  (∀ n fr ex node fr',
      loop_state o st target_id n (start_frontier source_id) ∅ = Some (fr, ex) →
      QueueFrontier.remove fr = Ret (node, fr') →
      state node ∉ ex)
  ∧ (∀ fuel path,
      shortest_path o st fuel source_id target_id = Some (Ret (Some path)) →
      NoDup (map snd path) ∧ source_id ∉ map snd path).
Proof.
  split.
  - intros n fr ex node fr' Hloop Hrem.
    assert (tidy source_id fr ex) as (_ & Hdisj & _).
    { eapply (loop_state_inv o st target_id (tidy source_id)); [|apply tidy_start|done].
      intros fr0 ex0 H0. pose proof (tidy_step o st source_id target_id fr0 ex0 H0) as Hs.
      by destruct (iterate o st target_id fr0 ex0) as [[?|]| |]. }
    apply Hdisj. unfold states. rewrite (queue_remove_Ret _ _ _ Hrem). by left.
  - intros fuel path Hsp.
    eapply (search_inv o st target_id (tidy source_id)
              (fun r => ∀ p, r = Ret (Some p) → NoDup (map snd p) ∧ source_id ∉ map snd p));
      [|apply tidy_start|exact Hsp|done].
    intros fr0 ex0 H0. pose proof (tidy_step o st source_id target_id fr0 ex0 H0) as Hs.
    destruct (iterate o st target_id fr0 ex0) as [[?|]| |]; [|done|done|done].
    by intros p [= <-].
Qed.

Lemma no_state_explored_twice_witness :
  let path := [(Some "10", "2"); (Some "11", "3"); (Some "12", "4")] in
  shortest_path canonical_order fixture 20 "1" "4" = Some (Ret (Some path))
  ∧ NoDup (map snd path) ∧ "1" ∉ map snd path.
Proof.
  intros path.
  assert (shortest_path canonical_order fixture 20 "1" "4" = Some (Ret (Some path))) as H
    by (vm_compute; reflexivity).
  split; [exact H|].
  exact (proj2 (no_state_explored_twice canonical_order fixture "1" "4") 20 path H).
Defined.

(** ** The returned path is never empty *)

(** A returned path ends with the hop into the target. *)
Lemma search_path_last o st target_id fuel fr ex path :
  search o st target_id fuel fr ex = Some (Ret (Some path)) →
  ∃ front m, path = front ++ [(Some m, target_id)].
Proof.
  intros Hsp.
  apply (search_inv o st target_id (fun _ _ => True)
           (fun r => ∀ p, r = Ret (Some p) → ∃ front m, p = front ++ [(Some m, target_id)]))
    with fuel fr ex (Ret (Some path)); [|exact I|exact Hsp|done].
  intros fr0 ex0 _. pose proof (iterate_spec o st target_id fr0 ex0) as Hspec.
  destruct (iterate o st target_id fr0 ex0) as [[p0|]|e|fr' ex']; [|done|done|done].
  destruct Hspec as (u & rest & nb & m & _ & _ & _ & _ & _ & ->).
  intros p [= <-]. exists (solution u), m. apply solution_child.
Qed.

(** C10. [shortest_path] never returns the empty list: the goal test is
    applied to child nodes only, and a child has a parent, so the loop that
    walks back to the root appends at least one hop. *)
Theorem shortest_path_never_empty o st fuel source_id target_id :
  shortest_path o st fuel source_id target_id ≠ Some (Ret (Some [])).
Proof.
  unfold shortest_path. intros Hsp.
  apply search_path_last in Hsp as (front & m & Hnil).
  symmetry in Hnil. apply app_eq_nil in Hnil as [_ Hhop]. discriminate Hhop.
Qed.

(** ** neighbors_for_person *)

Section neighbors.
Context (o : iteration_order) (Ho : faithful o) (st : store).

Lemma faithful_ids (s : gset string) x : x ∈ iter_ids o s ↔ x ∈ s.
Proof using Ho. destruct Ho as [H _]. by rewrite (H s), elem_of_elements. Qed.

Lemma faithful_pairs (s : gset (string * string)) x : x ∈ iter_pairs o s ↔ x ∈ s.
Proof using Ho. destruct Ho as [_ H]. by rewrite (H s), elem_of_elements. Qed.

Lemma add_stars_elem m (stars : list string) : ∀ acc m' w,
  (m', w) ∈ add_stars m stars acc ↔ (m', w) ∈ acc ∨ (m' = m ∧ w ∈ stars).
Proof.
  unfold add_stars. induction stars as [|q stars IH]; intros acc m' w; simpl.
  - rewrite elem_of_nil. tauto.
  - rewrite IH, elem_of_union, elem_of_singleton, elem_of_cons. split.
    + intros [[?|[= -> ->]]|[-> ?]]; auto.
    + intros [?|[-> [->|?]]]; auto.
Qed.

Lemma for_movies_Ret : ∀ (l : list string) acc nb,
  for_movies o st l acc = Ret nb →
  (∀ m, m ∈ l → is_Some (movies st !! m))
  ∧ ∀ m w, (m, w) ∈ nb ↔
           (m, w) ∈ acc ∨ (m ∈ l ∧ ∃ mv, movies st !! m = Some mv ∧ w ∈ movie_stars mv).
Proof using Ho.
  induction l as [|m0 l IH]; intros acc nb; simpl.
  { intros [= <-]. split; [by intros m ?%elem_of_nil|].
    intros m w. rewrite elem_of_nil. tauto. }
  unfold getitem. destruct (movies st !! m0) as [mv0|] eqn:Hm0; [|done]. simpl.
  intros [Hall Hnb]%IH. split.
  - intros m [->|?]%elem_of_cons; [by eexists | by apply Hall].
  - intros m w. rewrite Hnb, add_stars_elem, faithful_ids, elem_of_cons. split.
    + intros [[?|[-> ?]]|[? ?]]; [by left | right | right].
      * split; [by left | by exists mv0].
      * split; [by right | done].
    + intros [?|[[->|?] (mv & Hmv & ?)]];
        [by left; left | | right; split; [done | by exists mv]].
      left; right. split; [done|]. congruence.
Qed.

Lemma for_movies_Raise : ∀ (l : list string) acc e,
  for_movies o st l acc = Raise e →
  ∃ m, e = KeyError m ∧ m ∈ l ∧ movies st !! m = None.
Proof.
  induction l as [|m0 l IH]; intros acc e; simpl; [done|].
  unfold getitem. destruct (movies st !! m0) as [mv0|] eqn:Hm0; simpl.
  - intros (m & ? & ? & ?)%IH. exists m. split; [done|]. split; [by right | done].
  - intros [= <-]. exists m0. split; [done|]. split; [by left | done].
Qed.

(** The returned set holds exactly the pairs of a movie of the person and
    a star of that movie. *)
Lemma neighbors_Ret v nb :
  neighbors_for_person o st v = Ret nb → ∀ m w, (m, w) ∈ nb ↔ edge st v m w.
Proof using Ho.
  unfold neighbors_for_person, getitem.
  destruct (people st !! v) as [p|] eqn:Hp; [|done]. simpl.
  intros [_ Hnb]%for_movies_Ret m w. rewrite Hnb, faithful_ids, elem_of_empty.
  unfold edge. split.
  - intros [[]|(? & mv & ? & ?)]. by exists p, mv.
  - intros (p' & mv & Hp' & ? & ? & ?). right. assert (p' = p) as -> by congruence.
    split; [done | by exists mv].
Qed.

Lemma neighbors_Ret_known v nb p :
  neighbors_for_person o st v = Ret nb → people st !! v = Some p →
  ∀ m, m ∈ person_movies p → is_Some (movies st !! m).
Proof using Ho.
  unfold neighbors_for_person, getitem. intros Hnb Hp. rewrite Hp in Hnb. simpl in Hnb.
  apply for_movies_Ret in Hnb as [Hall _]. intros m Hm. apply Hall.
  by rewrite faithful_ids.
Qed.

(** A [KeyError] comes from the person or from one of the person's movies. *)
Lemma neighbors_Raise v e :
  neighbors_for_person o st v = Raise e →
  (people st !! v = None ∧ e = KeyError v)
  ∨ ∃ p m, people st !! v = Some p ∧ m ∈ person_movies p
           ∧ movies st !! m = None ∧ e = KeyError m.
Proof using Ho.
  unfold neighbors_for_person, getitem.
  destruct (people st !! v) as [p|] eqn:Hp; simpl.
  - intros (m & -> & Hin & Hm)%for_movies_Raise. right. exists p, m.
    by rewrite faithful_ids in Hin.
  - intros [= <-]. by left.
Qed.

Lemma neighbors_consistent v :
  consistent st → is_Some (people st !! v) →
  ∃ nb, neighbors_for_person o st v = Ret nb.
Proof using Ho.
  intros [Hpm _] [p Hp].
  destruct (neighbors_for_person o st v) as [nb|e] eqn:Hnb; [by exists nb|].
  apply neighbors_Raise in Hnb as [[? _]|(p' & m & Hp' & Hin & Hm & _)]; [congruence|].
  assert (p' = p) as -> by congruence.
  destruct (Hpm v p Hp m Hin) as [mv ?]. congruence.
Qed.

Lemma edge_known v m w : consistent st → edge st v m w → is_Some (people st !! w).
Proof.
  intros [_ Hmp] (p & mv & _ & _ & Hmv & Hin). exact (Hmp m mv Hmv w Hin).
Qed.

End neighbors.

(** ** Walks and paths *)

Lemma rooted_walk st source_id n :
  rooted st source_id n → walk st source_id (depth n) (state n).
Proof.
  induction 1 as [|p m q _ IH He]; simpl; [constructor|].
  by apply (walk_hop st _ _ (state p) m).
Qed.

Lemma path_walk_snoc st m w : ∀ path u v,
  path_walk st u path v → edge st v m w → path_walk st u (path ++ [(Some m, w)]) w.
Proof.
  induction path as [|[a q] path IH]; intros u v; simpl.
  - intros -> He. split; [by exists m | done].
  - intros [Ha Hrest] He. split; [done|]. by apply (IH q v).
Qed.

Lemma rooted_path_walk st source_id n :
  rooted st source_id n → path_walk st source_id (solution n) (state n).
Proof.
  induction 1 as [|p m q _ IH He]; [done|].
  rewrite solution_child. by apply (path_walk_snoc st m q _ _ (state p)).
Qed.

Lemma walk_prepend st u m q : edge st u m q → ∀ k v, walk st q k v → walk st u (S k) v.
Proof.
  intros He. induction 1 as [|k v m' w _ IH He'].
  - apply (walk_hop st u 0 u m q); [constructor | done].
  - by apply (walk_hop st u _ v m').
Qed.

Lemma path_walk_walk st : ∀ path u v,
  path_walk st u path v → walk st u (length path) v.
Proof.
  induction path as [|[a q] path IH]; intros u v; simpl.
  - intros ->. constructor.
  - intros [(m & _ & He) Hrest]. apply (walk_prepend st u m q He). by apply IH.
Qed.

Lemma walk_last st u k w : walk st u k w → u = w ∨ ∃ v m, edge st v m w.
Proof. destruct 1 as [|k v m w _ He]; [by left | right; by exists v, m]. Qed.

Lemma walk_known st k u v :
  consistent st → walk st u k v → is_Some (people st !! u) → is_Some (people st !! v).
Proof.
  intros Hc. induction 1 as [|k v m w _ _ He]; [done|].
  intros _. by apply (edge_known st v m w).
Qed.

(** ** Breadth-first order *)

Section bfs.
Context (o : iteration_order) (Ho : faithful o) (st : store).
Context (source_id target_id : string).

Lemma bfs_inv_start : bfs_inv st source_id target_id (start_frontier source_id) ∅.
Proof.
  clear Ho.
  split; [|split; [|split; [|split]]].
  - repeat constructor. simpl. lia.
  - exists 0, [mkNode source_id None None], []. by repeat constructor.
  - intros v Hv. set_solver.
  - right. unfold states. simpl. by left.
  - intros Hne. split; [set_solver|]. unfold states. simpl.
    intros Hin%list_elem_of_singleton. done.
Qed.

(** With [u] at the head of the frontier: the first node is the
    shallowest, and the rest is again in level order. *)
Lemma levels_head u rest d :
  levels d (u :: rest) →
  Forall (fun n => depth u ≤ depth n) (u :: rest) ∧ levels (depth u) rest.
Proof.
  intros ([|a front] & back & Heq & Hfront & Hback); simpl in Heq.
  - subst back. pose proof Hback as Hback'.
    apply Forall_cons in Hback as [Hu Hrest]. split.
    + eapply Forall_impl; [exact Hback'|]. simpl. intros n Hn. lia.
    + exists rest, []. rewrite app_nil_r. split; [done|]. split; [|constructor].
      eapply Forall_impl; [exact Hrest|]. simpl. intros n Hn. lia.
  - injection Heq as <- ->. apply Forall_cons in Hfront as [Hu Hfront]. split.
    + constructor; [lia|]. apply Forall_app. split.
      * eapply Forall_impl; [exact Hfront|]. simpl. intros n Hn. lia.
      * eapply Forall_impl; [exact Hback|]. simpl. intros n Hn. lia.
    + exists front, back. by rewrite Hu.
Qed.

Lemma levels_kids d rest kids :
  levels d rest → Forall (fun n => depth n = S d) kids → levels d (rest ++ kids).
Proof.
  intros (front & back & -> & Hfront & Hback) Hkids.
  exists front, (back ++ kids). rewrite <- app_assoc. split; [done|]. split; [done|].
  by apply Forall_app.
Qed.

(** A walk from the source ends at a state that has been seen, unless it
    is longer than the depth of the head of the frontier. *)
Lemma walk_seen fr ex u rest :
  bfs_inv st source_id target_id fr ex → QueueFrontier.frontier fr = u :: rest →
  ∀ k v, walk st source_id k v → v ∈ ex ∨ v ∈ states fr ∨ S (depth u) ≤ k.
Proof.
  intros (Hshort & [d Hlev] & Hclosed & Hsrc & _) Hf. rewrite Hf in Hlev, Hshort.
  apply levels_head in Hlev as [Hdeep _].
  induction 1 as [|k v' m v Hwalk IH He].
  { destruct Hsrc; auto. }
  destruct IH as [Hv'|[Hv'|Hk]]; [ | |right; right; lia].
  - destruct (Hclosed v' Hv' m v He); auto.
  - right; right. unfold states in Hv'. rewrite Hf in Hv'.
    apply list_elem_of_fmap in Hv' as (n & -> & Hn).
    rewrite Forall_forall in Hshort, Hdeep.
    destruct (Hshort n Hn) as [_ Hmin]. specialize (Hmin k Hwalk).
    specialize (Hdeep n Hn). simpl in Hdeep. lia.
Qed.

(** A child made for a state that has not been seen is the end of a
    shortest walk. *)
Lemma shortest_child fr ex u rest nb m q :
  bfs_inv st source_id target_id fr ex → QueueFrontier.frontier fr = u :: rest →
  neighbors_for_person o st (state u) = Ret nb → (m, q) ∈ iter_pairs o nb →
  q ∉ ex ∪ {[state u]} → q ∉ map state rest →
  shortest st source_id (mkNode q (Some u) (Some m)).
Proof using Ho.
  intros Hinv Hf Hnb Hin Hq1 Hq2.
  rewrite faithful_pairs in Hin by done. apply (neighbors_Ret o Ho st _ _ Hnb) in Hin.
  assert (shortest st source_id u) as [Hroot Hmin].
  { destruct Hinv as [Hshort _]. rewrite Hf in Hshort. by apply Forall_cons in Hshort as [? _]. }
  split; [by constructor|]. simpl. intros k Hwalk.
  destruct (walk_seen fr ex u rest Hinv Hf k q Hwalk) as [?|[Hseen|?]]; [set_solver| |done].
  unfold states in Hseen. rewrite Hf in Hseen. simpl in Hseen.
  apply elem_of_cons in Hseen as [->|?]; [set_solver | done].
Qed.

Lemma states_frontier (fr : QueueFrontier.t) l :
  QueueFrontier.frontier fr = l → states fr = map state l.
Proof. unfold states. by intros ->. Qed.

Lemma bfs_step fr ex :
  bfs_inv st source_id target_id fr ex →
  match iterate o st target_id fr ex with
  | Return (Some path) =>
      path_walk st source_id path target_id
      ∧ is_distance st source_id target_id (length path)
  | Return None => source_id ≠ target_id → ¬ reachable st source_id target_id
  | Raised _ => True
  | Continue fr' ex' => bfs_inv st source_id target_id fr' ex'
  end.
Proof using Ho.
  intros Hinv. pose proof (iterate_spec o st target_id fr ex) as Hspec.
  destruct (iterate o st target_id fr ex) as [[path|]|e|fr' ex']; [| |done|].
  - destruct Hspec as (u & rest & nb & m & Hf & Hnb & Hin & Hnot1 & Hnot2 & ->).
    destruct (shortest_child fr ex u rest nb m target_id Hinv Hf Hnb Hin Hnot1 Hnot2)
      as [Hroot Hmin].
    split; [exact (rooted_path_walk _ _ _ Hroot)|].
    rewrite solution_length. split; [exact (rooted_walk _ _ _ Hroot) | exact Hmin].
  - destruct Hinv as (_ & _ & Hclosed & Hsrc & Hunseen).
    intros Hne [k Hwalk]. destruct (Hunseen Hne) as [Hnot _].
    rewrite (states_frontier fr [] Hspec) in Hsrc, Hclosed.
    assert (source_id ∈ ex) as Hs by (destruct Hsrc as [?|?%elem_of_nil]; done).
    apply Hnot. clear Hnot Hunseen Hne. induction Hwalk as [|k v m w _ IH He]; [done|].
    by destruct (Hclosed v IH m w He) as [?|?%elem_of_nil].
  - destruct Hspec as (u & rest & nb & kids & Hf & Hnb & -> & Hf' & Hkids & _ & Hfresh & Hcov).
    pose proof Hinv as (Hshort & [d Hlev] & Hclosed & Hsrc & Hunseen).
    rewrite (states_frontier fr _ Hf) in Hclosed, Hsrc, Hunseen.
    rewrite Hf in Hshort, Hlev. apply levels_head in Hlev as [_ Hlev].
    apply Forall_cons in Hshort as [Hu Hrest].
    assert (Forall (shortest st source_id) kids) as Hshort_kids.
    { rewrite Forall_forall in Hkids. apply Forall_forall. intros c Hc.
      destruct (Hkids c Hc) as (m & q & -> & Hin).
      destruct (Hfresh _ Hc) as (? & ? & _).
      by apply (shortest_child fr ex u rest nb). }
    unfold bfs_inv. rewrite (states_frontier fr' _ Hf'), Hf', map_app.
    split; [|split; [|split; [|split]]].
    + by apply Forall_app.
    + exists (depth u). apply levels_kids; [done|].
      eapply Forall_impl; [exact Hkids|]. by intros c (m & q & -> & _).
    + intros v [Hv|Hv%elem_of_singleton]%elem_of_union m w He; [|subst v].
      * destruct (Hclosed v Hv m w He) as [?|[->|?]%elem_of_cons];
          [left; set_solver | left; set_solver | right; set_solver].
      * apply (neighbors_Ret o Ho st _ _ Hnb) in He.
        rewrite <- faithful_pairs in He by done.
        destruct (Hcov m w He) as [?|[?|?]]; [by left | right | right]; set_solver.
    + destruct Hsrc as [?|[->|?]%elem_of_cons];
        [left; set_solver | left; set_solver | right; set_solver].
    + intros Hne. destruct (Hunseen Hne) as [Hnot1 Hnot2].
      apply not_elem_of_cons in Hnot2 as [? ?]. split; [set_solver|].
      intros [?|(c & Heq & Hc)%list_elem_of_fmap]%elem_of_app; [done|].
      by destruct (Hfresh c Hc) as (_ & _ & ?).
Qed.

(** What the loop can return when it is started in a state that
    satisfies the invariant. *)
Lemma bfs_result fuel fr ex r :
  bfs_inv st source_id target_id fr ex → search o st target_id fuel fr ex = Some r →
  match r with
  | Ret (Some path) =>
      path_walk st source_id path target_id
      ∧ is_distance st source_id target_id (length path)
  | Ret None => source_id ≠ target_id → ¬ reachable st source_id target_id
  | Raise _ => True
  end.
Proof using Ho.
  intros Hinv Hsearch.
  apply (search_inv o st target_id (bfs_inv st source_id target_id)
           (fun r => match r with
                     | Ret (Some path) =>
                         path_walk st source_id path target_id
                         ∧ is_distance st source_id target_id (length path)
                     | Ret None =>
                         source_id ≠ target_id → ¬ reachable st source_id target_id
                     | Raise _ => True
                     end)) with fuel fr ex; [|exact Hinv|exact Hsearch].
  intros fr0 ex0 H0. pose proof (bfs_step fr0 ex0 H0) as Hstep.
  by destruct (iterate o st target_id fr0 ex0) as [[?|]| |].
Qed.

End bfs.

(** ** Termination on a consistent store *)

Section termination.
Context (o : iteration_order) (Ho : faithful o).
Context (st : store) (Hst : consistent st).
Context (source_id target_id : string).

Lemma known_start :
  is_Some (people st !! source_id) → known st source_id (start_frontier source_id) ∅.
Proof.
  clear Ho Hst. intros Hs. split; [apply tidy_start|]. split.
  - by repeat constructor.
  - intros q Hq. set_solver.
Qed.

Lemma known_step fr ex :
  known st source_id fr ex →
  match iterate o st target_id fr ex with
  | Return _ => True
  | Raised _ => False
  | Continue fr' ex' =>
      known st source_id fr' ex' ∧ ex ⊂ ex'
      ∧ size (dom (people st) ∖ ex') < size (dom (people st) ∖ ex)
  end.
Proof using Ho Hst.
  intros (Htidy & Hfr & Hex).
  pose proof (iterate_spec o st target_id fr ex) as Hspec.
  pose proof (tidy_step o st source_id target_id fr ex Htidy) as Htidy'.
  destruct (iterate o st target_id fr ex) as [r|e|fr' ex']; [done| |].
  - destruct Hspec as (u & rest & Hf & Hnb).
    rewrite (states_frontier fr _ Hf) in Hfr. apply Forall_cons in Hfr as [Hu _].
    destruct (neighbors_consistent o Ho st (state u) Hst Hu) as [nb ?]. congruence.
  - destruct Hspec as (u & rest & nb & kids & Hf & Hnb & -> & Hf' & Hkids & _).
    destruct Htidy as (_ & Hdisj & _).
    rewrite (states_frontier fr _ Hf) in Hfr, Hdisj. simpl in Hfr.
    apply Forall_cons in Hfr as [Hu Hrest].
    assert (state u ∉ ex) as Hfresh by (apply Hdisj; by left).
    assert (state u ∈ dom (people st)) as Hdom by by apply elem_of_dom.
    split; [split; [done|split]|split].
    + rewrite (states_frontier fr' _ Hf'), map_app. apply Forall_app. split; [done|].
      apply Forall_fmap. eapply Forall_impl; [exact Hkids|].
      intros c (m & q & -> & Hin). simpl.
      rewrite faithful_pairs in Hin by done. apply (neighbors_Ret o Ho st _ _ Hnb) in Hin.
      by apply (edge_known st (state u) m q).
    + intros q [?|Hq%elem_of_singleton]%elem_of_union; [by apply Hex | by subst q].
    + set_solver.
    + apply subset_size. set_solver.
Qed.

Lemma search_terminates : ∀ fuel fr ex,
  known st source_id fr ex → size (dom (people st) ∖ ex) < fuel →
  ∃ r, search o st target_id fuel fr ex = Some (Ret r).
Proof using Ho Hst.
  induction fuel as [|fuel IH]; intros fr ex Hknown Hsize; [lia|]. simpl.
  pose proof (known_step fr ex Hknown) as Hstep.
  destruct (iterate o st target_id fr ex) as [r|e|fr' ex']; [by exists r|done|].
  destruct Hstep as (Hknown' & _ & Hlt). apply IH; [done | lia].
Qed.

Lemma shortest_path_returns fuel :
  is_Some (people st !! source_id) → size (people st) < fuel →
  ∃ r, shortest_path o st fuel source_id target_id = Some (Ret r).
Proof using Ho Hst.
  intros Hs Hfuel. apply search_terminates; [by apply known_start|].
  rewrite difference_empty_L, size_dom. done.
Qed.

End termination.

Lemma canonical_order_faithful : faithful canonical_order.
Proof. split; intros s; reflexivity. Defined.

Lemma fixture_consistent : consistent fixture.
Proof. apply (bool_decide_unpack _). vm_compute. exact I. Defined.

(** C4. On a consistent store and for a source that is a key of [people],
    [shortest_path] terminates, for every target: the loop returns within
    [size people + 1] iterations and without raising.  Each iteration that
    does not leave the loop makes the explored set strictly larger, and the
    frontier it leaves holds every state at most once and no explored
    state. *)
Theorem shortest_path_terminates o st source_id target_id :
  faithful o → consistent st → is_Some (people st !! source_id) →
  (∀ fuel, size (people st) < fuel →
     ∃ r, shortest_path o st fuel source_id target_id = Some (Ret r))
  ∧ (∀ n fr ex fr' ex',
       loop_state o st target_id n (start_frontier source_id) ∅ = Some (fr, ex) →
       iterate o st target_id fr ex = Continue fr' ex' →
       ex ⊂ ex' ∧ NoDup (states fr') ∧ ∀ q, q ∈ states fr' → q ∉ ex').
Proof.
  intros Ho Hst Hs. split.
  - intros fuel Hfuel. by apply shortest_path_returns.
  - intros n fr ex fr' ex' Hloop Hiter.
    assert (known st source_id fr ex) as Hknown.
    { eapply (loop_state_inv o st target_id (known st source_id));
        [|by apply known_start|exact Hloop].
      intros fr0 ex0 H0.
      pose proof (known_step o Ho st Hst source_id target_id fr0 ex0 H0) as Hstep.
      destruct (iterate o st target_id fr0 ex0); [done|done|]. by destruct Hstep. }
    pose proof (known_step o Ho st Hst source_id target_id fr ex Hknown) as Hstep.
    rewrite Hiter in Hstep. destruct Hstep as (((? & ? & _) & _) & ? & _). done.
Qed.

Lemma shortest_path_terminates_witness :
  ∃ r, shortest_path canonical_order fixture 9 "1" "4" = Some (Ret r).
Proof.
  apply (shortest_path_terminates canonical_order fixture "1" "4"
           canonical_order_faithful fixture_consistent).
  - vm_compute. eauto.
  - vm_compute. lia.
Defined.

Lemma edgeb_edge st v m w : edgeb st v m w = true → edge st v m w.
Proof.
  unfold edgeb, edge.
  destruct (people st !! v) as [p|]; [|done]. destruct (movies st !! m) as [mv|]; [|done].
  intros [?%bool_decide_eq_true ?%bool_decide_eq_true]%andb_true_iff. by exists p, mv.
Qed.

(** ** What shortest_path returns on a consistent store *)

(** X22. On a consistent store, for two different keys of [people] of which
    the second is reachable from the first, [shortest_path] returns a list
    of hops that is a walk from the source to the target and whose length
    is the graph distance. *)
Theorem shortest_path_correct o st source_id target_id :
  faithful o → consistent st →
  is_Some (people st !! source_id) → is_Some (people st !! target_id) →
  source_id ≠ target_id → reachable st source_id target_id →
  ∀ fuel, size (people st) < fuel →
    ∃ path, shortest_path o st fuel source_id target_id = Some (Ret (Some path))
            ∧ path_walk st source_id path target_id
            ∧ is_distance st source_id target_id (length path).
Proof.
  intros Ho Hst Hs _ Hne Hreach fuel Hfuel.
  destruct (shortest_path_returns o Ho st Hst source_id target_id fuel Hs Hfuel) as [r Hr].
  pose proof (bfs_result o Ho st source_id target_id fuel _ _ _
                (bfs_inv_start st source_id target_id) Hr) as Hres.
  destruct r as [path|]; [by exists path|]. by destruct (Hres Hne).
Qed.

Lemma fixture_walk_1_4 : walk fixture "1" 3 "4".
Proof.
  apply (walk_hop fixture "1" 2 "3" "12" "4"); [|by apply edgeb_edge; vm_compute].
  apply (walk_hop fixture "1" 1 "2" "11" "3"); [|by apply edgeb_edge; vm_compute].
  apply (walk_hop fixture "1" 0 "1" "10" "2"); [|by apply edgeb_edge; vm_compute].
  constructor.
Defined.

Lemma shortest_path_correct_witness :
  ∃ path, shortest_path canonical_order fixture 9 "1" "4" = Some (Ret (Some path))
          ∧ path_walk fixture "1" path "4"
          ∧ is_distance fixture "1" "4" (length path).
Proof.
  apply (shortest_path_correct canonical_order fixture "1" "4"
           canonical_order_faithful fixture_consistent).
  - vm_compute. eauto.
  - vm_compute. eauto.
  - discriminate.
  - exists 3. exact fixture_walk_1_4.
  - vm_compute. lia.
Defined.

(** C5. On a consistent store, for two keys of [people] of which the second
    is not reachable from the first, [shortest_path] returns [None]; it
    does not raise. *)
Theorem disconnected_returns_None o st source_id target_id :
  faithful o → consistent st →
  is_Some (people st !! source_id) → is_Some (people st !! target_id) →
  ¬ reachable st source_id target_id →
  ∀ fuel, size (people st) < fuel →
    shortest_path o st fuel source_id target_id = Some (Ret None).
Proof.
  intros Ho Hst Hs _ Hunreach fuel Hfuel.
  destruct (shortest_path_returns o Ho st Hst source_id target_id fuel Hs Hfuel) as [r Hr].
  pose proof (bfs_result o Ho st source_id target_id fuel _ _ _
                (bfs_inv_start st source_id target_id) Hr) as Hres.
  destruct r as [path|]; [|done]. destruct Hres as [_ [Hwalk _]].
  destruct Hunreach. by exists (length path).
Qed.

Lemma fixture_8_isolated : ∀ v, ¬ reachable fixture v "8" ∨ v = "8".
Proof.
  intros v. destruct (decide (v = "8")) as [|Hne]; [by right|]. left.
  intros [k Hwalk].
  destruct (walk_last fixture v k "8" Hwalk) as [|(v' & m & p & mv & _ & _ & Hmv & Hin)]; [done|].
  assert (map_Forall (fun _ mv => "8" ∉ movie_stars mv) (movies fixture)) as Hall
    by (apply (bool_decide_unpack _); vm_compute; exact I).
  exact (Hall m mv Hmv Hin).
Defined.

Lemma disconnected_returns_None_witness :
  shortest_path canonical_order fixture 9 "1" "8" = Some (Ret None).
Proof.
  apply (disconnected_returns_None canonical_order fixture "1" "8"
           canonical_order_faithful fixture_consistent).
  - vm_compute. eauto.
  - vm_compute. eauto.
  - by destruct (fixture_8_isolated "1").
  - vm_compute. lia.
Defined.

(** ** Identifiers that are not keys of people *)

Lemma first_iteration_raises o st source_id target_id e :
  neighbors_for_person o st source_id = Raise e →
  ∀ fuel, shortest_path o st (S fuel) source_id target_id = Some (Raise e).
Proof.
  intros Hnb fuel. unfold shortest_path. simpl. unfold iterate. simpl. by rewrite Hnb.
Qed.

(** C2, as stated, fails: "unknown" is not a key of [people], and
    [shortest_path "1" "unknown"] returns [None], the "no path" outcome. *)
Lemma unknown_target_reported_as_no_path :
  people fixture !! "unknown" = None
  ∧ shortest_path canonical_order fixture 9 "1" "unknown" = Some (Ret None).
Proof. split; vm_compute; reflexivity. Qed.

(** C2, amended. A source that is not a key of [people] makes
    [shortest_path] raise [KeyError] for that id in the first iteration, an
    outcome different from [None].  A target that is not a key of [people]
    is not detected: on a consistent store and for a known source the search
    runs to the end and returns [None], as for a target that is not
    connected. *)
Theorem unknown_identifier o st source_id target_id :
  faithful o →
  (people st !! source_id = None →
     ∀ fuel, shortest_path o st (S fuel) source_id target_id
             = Some (Raise (KeyError source_id)))
  ∧ (consistent st → is_Some (people st !! source_id) → people st !! target_id = None →
     ∀ fuel, size (people st) < fuel →
       shortest_path o st fuel source_id target_id = Some (Ret None)).
Proof.
  intros Ho. split.
  - intros Hs fuel. apply first_iteration_raises.
    unfold neighbors_for_person, getitem. by rewrite Hs.
  - intros Hst Hs Ht fuel Hfuel.
    destruct (shortest_path_returns o Ho st Hst source_id target_id fuel Hs Hfuel) as [r Hr].
    pose proof (bfs_result o Ho st source_id target_id fuel _ _ _
                  (bfs_inv_start st source_id target_id) Hr) as Hres.
    destruct r as [path|]; [|done]. destruct Hres as [_ [Hwalk _]].
    apply (walk_known st _ _ _ Hst) in Hwalk; [|done].
    rewrite Ht in Hwalk. by destruct Hwalk.
Qed.

Lemma unknown_identifier_witness :
  shortest_path canonical_order fixture 1 "unknown" "1" = Some (Raise (KeyError "unknown"))
  ∧ shortest_path canonical_order fixture 9 "1" "unknown" = Some (Ret None).
Proof.
  destruct (unknown_identifier canonical_order fixture "unknown" "1"
              canonical_order_faithful) as [Hsource _].
  destruct (unknown_identifier canonical_order fixture "1" "unknown"
              canonical_order_faithful) as [_ Htarget].
  split.
  - apply Hsource. vm_compute. reflexivity.
  - apply Htarget.
    + exact fixture_consistent.
    + vm_compute. eauto.
    + vm_compute. reflexivity.
    + vm_compute. lia.
Defined.

(** ** Source and target equal *)

(** C3, what the code does. For a key [x] of [people] of a consistent store,
    [shortest_path x x] returns [None], not the empty list: the root node
    is never tested against the target, and once it is explored no child
    is made for its state. *)
Theorem same_person_returns_None o st x :
  faithful o → consistent st → is_Some (people st !! x) →
  ∀ fuel, size (people st) < fuel → shortest_path o st fuel x x = Some (Ret None).
Proof.
  intros Ho Hst Hx fuel Hfuel.
  destruct (shortest_path_returns o Ho st Hst x x fuel Hx Hfuel) as [r Hr].
  pose proof (bfs_result o Ho st x x fuel _ _ _ (bfs_inv_start st x x) Hr) as Hres.
  destruct r as [path|]; [|done]. destruct Hres as [_ [_ Hmin]].
  specialize (Hmin 0 (walk_here st x)).
  destruct path; [|simpl in Hmin; lia].
  apply search_path_last in Hr as ([|] & m & [=]).
Qed.

Lemma same_person_returns_None_witness :
  shortest_path canonical_order fixture 9 "1" "1" = Some (Ret None).
Proof.
  apply (same_person_returns_None canonical_order fixture "1"
           canonical_order_faithful fixture_consistent).
  - vm_compute. eauto.
  - vm_compute. lia.
Defined.

(** ** person_id_for_name and the tables *)

Lemma faithful_singleton o (x : string) : faithful o → iter_ids o {[x]} = [x].
Proof.
  intros [H _]. apply Permutation_singleton_r. by rewrite (H {[x]}), elements_singleton.
Qed.

Lemma faithful_empty o : faithful o → iter_ids o ∅ = [].
Proof.
  intros [H _]. apply Permutation_nil_r. by rewrite (H ∅), elements_empty.
Qed.

(** C6, what the code does. For a name that belongs to exactly one person,
    [person_id_for_name] returns the id by [names[name].pop()], which takes
    the id out of the set stored in [names]: after the call the entry of
    the name is the empty set, so [names] has changed ([people] and
    [movies] have not), and a second call with the same name raises
    [KeyError]. *)
Theorem person_id_for_name_pops o w name ids :
  faithful o →
  names (w_store w) !! lower name = Some ids → size ids = 1 →
  ∃ person_id w',
    ids = {[person_id]}
    ∧ person_id_for_name o w name = (Ret (Some person_id), w')
    ∧ names (w_store w') !! lower name = Some ∅
    ∧ names (w_store w') ≠ names (w_store w)
    ∧ people (w_store w') = people (w_store w)
    ∧ movies (w_store w') = movies (w_store w)
    ∧ fst (person_id_for_name o w' name) = Raise (KeyError "pop from an empty set").
Proof.
  intros Ho Hids Hsize.
  apply size_1_elem_of in Hsize as [x Hx]. apply leibniz_equiv in Hx. subst ids.
  exists x. eexists. split; [done|].
  unfold person_id_for_name at 1. rewrite Hids.
  pose proof (size_singleton (C:=gset string) x) as Hone.
  destruct (decide (1 < size ({[x]} : gset string))) as [?|_]; [lia|].
  unfold set_pop. rewrite (faithful_singleton o x Ho).
  split; [reflexivity|]. simpl.
  rewrite difference_diag_L, lookup_insert_eq.
  split; [done|]. split; [|split; [done|split; [done|]]].
  - intros Heq. rewrite <- Heq, lookup_insert_eq in Hids.
    apply (inj Some) in Hids. set_solver.
  - unfold person_id_for_name. simpl. rewrite lookup_insert_eq.
    pose proof (size_empty (C:=gset string)) as Hzero.
    destruct (decide (1 < size (∅ : gset string))) as [?|_]; [lia|].
    unfold set_pop. by rewrite (faithful_empty o Ho).
Qed.

Lemma person_id_for_name_pops_witness :
  ∃ person_id w',
    ({[ "2" ]} : gset string) = {[person_id]}
    ∧ person_id_for_name canonical_order fixture_world "Bob" = (Ret (Some person_id), w')
    ∧ names (w_store w') !! lower "Bob" = Some ∅
    ∧ names (w_store w') ≠ names (w_store fixture_world)
    ∧ people (w_store w') = people (w_store fixture_world)
    ∧ movies (w_store w') = movies (w_store fixture_world)
    ∧ fst (person_id_for_name canonical_order w' "Bob")
      = Raise (KeyError "pop from an empty set").
Proof.
  assert (names (w_store fixture_world) !! lower "Bob" = Some {[ "2" ]}) as Hname
    by (vm_compute; reflexivity).
  assert (size ({[ "2" ]} : gset string) = 1) as Hsize by (vm_compute; reflexivity).
  exact (person_id_for_name_pops canonical_order fixture_world "Bob" {[ "2" ]}
           canonical_order_faithful Hname Hsize).
Defined.

(** ** Rows of stars.csv that name a movie missing from movies.csv *)

(** C1, what the code does on a store loaded from files in which a row of
    stars.csv names a known person and an unknown movie.  [load_data] adds
    the movie id to the person's set before the lookup of the movie raises
    the [KeyError] that is then passed over, so the loaded store is not
    consistent; persons "1" and "2" are both keys of [people] and share
    movie "10", yet [shortest_path "1" "2"] raises [KeyError] for the
    unknown movie instead of returning the path of one hop. *)
Theorem dangling_movie_raises o :
  faithful o →
  is_Some (people dangling !! "1") ∧ is_Some (people dangling !! "2")
  ∧ edge dangling "1" "10" "2"
  ∧ ¬ consistent dangling
  ∧ ∀ fuel, shortest_path o dangling (S fuel) "1" "2" = Some (Raise (KeyError "99")).
Proof.
  intros Ho.
  split; [by vm_compute; eauto|]. split; [by vm_compute; eauto|].
  split; [by apply edgeb_edge; vm_compute|].
  split; [apply (bool_decide_unpack _); vm_compute; exact I|].
  assert (map_Forall (fun k p => k = "1" →
            "99" ∈ person_movies p
            ∧ set_Forall (fun m => m = "10" ∨ m = "99") (person_movies p))
            (people dangling)) as Hperson
    by (apply (bool_decide_unpack _); vm_compute; exact I).
  assert (movies dangling !! "99" = None) as H99 by (vm_compute; reflexivity).
  assert (is_Some (movies dangling !! "10")) as H10 by (vm_compute; eauto).
  apply first_iteration_raises.
  destruct (neighbors_for_person o dangling "1") as [nb|e] eqn:Hnb.
  - assert (is_Some (people dangling !! "1")) as [p Hp] by (vm_compute; eauto).
    destruct (Hperson "1" p Hp eq_refl) as [Hin _].
    destruct (neighbors_Ret_known o Ho dangling "1" nb p Hnb Hp "99" Hin) as [mv Hmv].
    congruence.
  - apply (neighbors_Raise o Ho) in Hnb as [[Hnone _]|(p & m & Hp & Hin & Hm & ->)].
    + assert (is_Some (people dangling !! "1")) as [p Hp] by (vm_compute; eauto). congruence.
    + destruct (Hperson "1" p Hp eq_refl) as [_ Hall].
      destruct (Hall m Hin) as [->| ->]; [|done]. destruct H10 as [mv Hmv]. congruence.
Qed.

Lemma dangling_movie_raises_witness :
  shortest_path canonical_order dangling 9 "1" "2" = Some (Raise (KeyError "99")).
Proof.
  exact (proj2 (proj2 (proj2 (proj2
           (dangling_movie_raises canonical_order canonical_order_faithful)))) 8).
Defined.

(** ** Stores loaded from files without such rows *)

Lemma consistent_alt st :
  consistent st ↔
  (∀ k p m, people st !! k = Some p → m ∈ person_movies p → is_Some (movies st !! m))
  ∧ (∀ k mv q, movies st !! k = Some mv → q ∈ movie_stars mv → is_Some (people st !! q)).
Proof.
  unfold consistent, map_Forall, set_Forall. split; intros [H1 H2]; split; eauto.
Qed.

Lemma load_people_spec (l : list people_row) : ∀ st,
  (∀ k p, people st !! k = Some p → person_movies p = ∅) →
  let st' := foldl load_person st l in
  (∀ k p, people st' !! k = Some p → person_movies p = ∅)
  ∧ movies st' = movies st
  ∧ ∀ k, is_Some (people st' !! k) ↔ is_Some (people st !! k) ∨ k ∈ map pr_id l.
Proof.
  induction l as [|row l IH]; intros st Hst; simpl.
  { split; [done|]. split; [done|]. intros k. rewrite elem_of_nil. tauto. }
  destruct (IH (load_person st row)) as (H1 & H2 & H3).
  { intros k p. unfold load_person. simpl.
    intros [[_ <-]|[_ ?]]%lookup_insert_Some; [done | by eapply Hst]. }
  split; [done|]. split; [by rewrite H2|].
  intros k. rewrite H3, elem_of_cons. unfold load_person at 1. simpl.
  rewrite lookup_insert_is_Some. split.
  - intros [[->|[_ ?]]|?]; auto.
  - intros [?|[->|?]]; [|by auto|by auto].
    destruct (decide (pr_id row = k)); auto.
Qed.

Lemma load_movies_spec (l : list movies_row) : ∀ st,
  (∀ k mv, movies st !! k = Some mv → movie_stars mv = ∅) →
  let st' := foldl load_movie st l in
  (∀ k mv, movies st' !! k = Some mv → movie_stars mv = ∅)
  ∧ people st' = people st
  ∧ ∀ k, is_Some (movies st' !! k) ↔ is_Some (movies st !! k) ∨ k ∈ map mr_id l.
Proof.
  induction l as [|row l IH]; intros st Hst; simpl.
  { split; [done|]. split; [done|]. intros k. rewrite elem_of_nil. tauto. }
  destruct (IH (load_movie st row)) as (H1 & H2 & H3).
  { intros k mv. unfold load_movie. simpl.
    intros [[_ <-]|[_ ?]]%lookup_insert_Some; [done | by eapply Hst]. }
  split; [done|]. split; [by rewrite H2|].
  intros k. rewrite H3, elem_of_cons. unfold load_movie at 1. simpl.
  rewrite lookup_insert_is_Some. split.
  - intros [[->|[_ ?]]|?]; auto.
  - intros [?|[->|?]]; [|by auto|by auto].
    destruct (decide (mr_id row = k)); auto.
Qed.

(** A row of stars.csv that does not name a known person together with an
    unknown movie keeps the store consistent and adds no key. *)
Lemma load_star_consistent st row :
  consistent st →
  (is_Some (people st !! sr_person_id row) → is_Some (movies st !! sr_movie_id row)) →
  let st' := load_star st row in
  consistent st'
  ∧ (∀ k, is_Some (people st' !! k) ↔ is_Some (people st !! k))
  ∧ (∀ k, is_Some (movies st' !! k) ↔ is_Some (movies st !! k)).
Proof.
  intros [Hpm Hmp]%consistent_alt Hclean. unfold load_star.
  destruct (people st !! sr_person_id row) as [p|] eqn:Hp.
  2:{ split; [by apply consistent_alt|]. done. }
  destruct Hclean as [mv Hmv]; [done|]. simpl. rewrite Hmv. simpl.
  split; [apply consistent_alt; simpl; split|split].
  - intros k p' m [[<- <-]|[_ Hk]]%lookup_insert_Some Hm; simpl in *;
      rewrite lookup_insert_is_Some.
    + apply elem_of_union in Hm as [Hm|Hm%elem_of_singleton]; [|left; by subst m].
      destruct (decide (sr_movie_id row = m)); [by left|]. right. split; [done|]. eauto.
    + destruct (decide (sr_movie_id row = m)); [by left|]. right. split; [done|]. eauto.
  - intros k mv' q [[<- <-]|[_ Hk]]%lookup_insert_Some Hq; simpl in *;
      rewrite lookup_insert_is_Some.
    + apply elem_of_union in Hq as [Hq|Hq%elem_of_singleton]; [|left; by subst q].
      destruct (decide (sr_person_id row = q)); [by left|]. right. split; [done|]. eauto.
    + destruct (decide (sr_person_id row = q)); [by left|]. right. split; [done|]. eauto.
  - intros k. rewrite lookup_insert_is_Some. split.
    + intros [<-|[_ ?]]; [by eexists | done].
    + intros ?. destruct (decide (sr_person_id row = k)); auto.
  - intros k. rewrite lookup_insert_is_Some. split.
    + intros [<-|[_ ?]]; [by eexists | done].
    + intros ?. destruct (decide (sr_movie_id row = k)); auto.
Qed.

Lemma load_stars_consistent (l : list stars_row) : ∀ st,
  consistent st →
  Forall (fun row => is_Some (people st !! sr_person_id row) →
                     is_Some (movies st !! sr_movie_id row)) l →
  consistent (foldl load_star st l).
Proof.
  induction l as [|row l IH]; intros st Hst Hl; simpl; [done|].
  apply Forall_cons in Hl as [Hrow Hl].
  destruct (load_star_consistent st row Hst Hrow) as (Hst' & Hp & Hm).
  apply IH; [done|]. eapply Forall_impl; [exact Hl|]. simpl.
  intros row'. rewrite Hp, Hm. done.
Qed.

Lemma load_data_consistent people_csv movies_csv stars_csv :
  clean_stars people_csv movies_csv stars_csv →
  consistent (load_data people_csv movies_csv stars_csv).
Proof.
  intros Hclean. unfold load_data, load_data_from.
  destruct (load_people_spec people_csv empty_store) as (Hp1 & Hp2 & Hp3).
  { intros k p. simpl. by rewrite lookup_empty. }
  set (st1 := foldl load_person empty_store people_csv) in *.
  destruct (load_movies_spec movies_csv st1) as (Hm1 & Hm2 & Hm3).
  { intros k mv. rewrite Hp2. simpl. by rewrite lookup_empty. }
  set (st2 := foldl load_movie st1 movies_csv) in *.
  apply load_stars_consistent.
  - apply consistent_alt. split.
    + intros k p m. rewrite Hm2. intros Hk%Hp1. rewrite Hk. set_solver.
    + intros k mv q Hk%Hm1. rewrite Hk. set_solver.
  - eapply Forall_impl; [exact Hclean|]. simpl. intros row Hrow.
    rewrite Hm2, Hm3, Hp3. simpl. rewrite lookup_empty.
    intros [[? [=]]|Hin]. right. by apply Hrow.
Qed.

(** X23. For files without such rows the loaded store is consistent, and
    [shortest_path] on it returns, for two different persons of whom the
    second is reachable from the first, a walk between them whose length
    is the graph distance. *)
Theorem shortest_path_correct_loaded o people_csv movies_csv stars_csv source_id target_id :
  faithful o → clean_stars people_csv movies_csv stars_csv →
  let st := load_data people_csv movies_csv stars_csv in
  is_Some (people st !! source_id) → is_Some (people st !! target_id) →
  source_id ≠ target_id → reachable st source_id target_id →
  ∀ fuel, size (people st) < fuel →
    ∃ path, shortest_path o st fuel source_id target_id = Some (Ret (Some path))
            ∧ path_walk st source_id path target_id
            ∧ is_distance st source_id target_id (length path).
Proof.
  intros Ho Hclean st Hs _ Hne Hreach fuel Hfuel.
  assert (consistent st) as Hst by by apply load_data_consistent.
  destruct (shortest_path_returns o Ho st Hst source_id target_id fuel Hs Hfuel) as [r Hr].
  pose proof (bfs_result o Ho st source_id target_id fuel _ _ _
                (bfs_inv_start st source_id target_id) Hr) as Hres.
  destruct r as [path|]; [by exists path|]. by destruct (Hres Hne).
Qed.

Lemma fixture_clean : clean_stars fixture_people fixture_movies fixture_stars.
Proof. apply (bool_decide_unpack _). vm_compute. exact I. Defined.

Lemma shortest_path_correct_loaded_witness :
  ∃ path, shortest_path canonical_order
            (load_data fixture_people fixture_movies fixture_stars) 9 "1" "4"
          = Some (Ret (Some path))
          ∧ path_walk (load_data fixture_people fixture_movies fixture_stars) "1" path "4"
          ∧ is_distance (load_data fixture_people fixture_movies fixture_stars) "1" "4"
              (length path).
Proof.
  apply (shortest_path_correct_loaded canonical_order
           fixture_people fixture_movies fixture_stars "1" "4"
           canonical_order_faithful fixture_clean).
  - vm_compute. eauto.
  - vm_compute. eauto.
  - discriminate.
  - exists 3.
    apply (walk_hop _ "1" 2 "3" "12" "4"); [|by apply edgeb_edge; vm_compute].
    apply (walk_hop _ "1" 1 "2" "11" "3"); [|by apply edgeb_edge; vm_compute].
    apply (walk_hop _ "1" 0 "1" "10" "2"); [|by apply edgeb_edge; vm_compute].
    constructor.
  - vm_compute. lia.
Defined.

(** * Further properties *)

(** ** The stack discipline *)

Lemma stack_remove_snoc (l : list Node) (n : Node) :
  StackFrontier.remove (StackFrontier.mk (l ++ [n])) = Ret (n, StackFrontier.mk l).
Proof.
  unfold StackFrontier.remove, StackFrontier.empty. simpl.
  rewrite length_app, last_snoc, removelast_last. simpl.
  by replace (length l + 1) with (S (length l)) by lia.
Qed.

Lemma run_stack_adds (l : list Node) : ∀ rest (f : StackFrontier.t) out,
  run_stack (map Add l ++ rest) f out
  = run_stack rest (StackFrontier.mk (StackFrontier.frontier f ++ l)) out.
Proof.
  induction l as [|n l IH]; intros rest f out; simpl.
  - rewrite app_nil_r. by destruct f.
  - rewrite IH. simpl. by rewrite <- app_assoc.
Qed.

Lemma run_stack_removes (l : list Node) : ∀ (l0 : list Node) out,
  run_stack (replicate (length l) Remove) (StackFrontier.mk (l0 ++ l)) out
  = (out ++ reverse l, Ret (StackFrontier.mk l0)).
Proof.
  induction l as [|n l IH] using rev_ind; intros l0 out; simpl.
  - by rewrite !app_nil_r.
  - rewrite length_app. simpl. replace (length l + 1) with (S (length l)) by lia. simpl.
    rewrite app_assoc, stack_remove_snoc, IH, reverse_snoc.
    by rewrite <- app_assoc.
Qed.

(** X1. A stack frontier is last-in-first-out: [remove] right after
    [add] returns the node just added and leaves the frontier as it was
    before the [add]; and when a list of nodes is added to a new stack
    frontier and as many nodes are removed, they come back in the
    opposite order and the frontier is empty again. *)
Theorem stack_frontier_lifo :
  (∀ (f : StackFrontier.t) (n : Node),
      StackFrontier.remove (StackFrontier.add f n) = Ret (n, f))
  ∧ ∀ l : list Node,
      run_stack (map Add l ++ replicate (length l) Remove) StackFrontier.init []
      = (reverse l, Ret StackFrontier.init).
Proof.
  split.
  - intros [l] n. apply stack_remove_snoc.
  - intros l. rewrite run_stack_adds. simpl.
    apply (run_stack_removes l [] []).
Qed.

(** X2. [remove] on a frontier that is not empty does not raise and loses
    no node: the queue returns the first node and keeps the others in
    order, the stack returns the last node and keeps the others in
    order. *)
Theorem remove_nonempty (f : StackFrontier.t) :
  StackFrontier.empty f = false →
  (∃ n f', QueueFrontier.remove f = Ret (n, f')
           ∧ StackFrontier.frontier f = n :: StackFrontier.frontier f')
  ∧ (∃ n f', StackFrontier.remove f = Ret (n, f')
             ∧ StackFrontier.frontier f = StackFrontier.frontier f' ++ [n]).
Proof.
  intros He. destruct f as [l]. destruct l as [|n0 l0]; [done|]. split.
  - exists n0, (StackFrontier.mk l0). split; [|done].
    by apply queue_remove_cons.
  - destruct (exists_last (l := n0 :: l0)) as (l' & n' & Heq); [done|].
    rewrite Heq. exists n', (StackFrontier.mk l'). split; [|done].
    apply stack_remove_snoc.
Qed.

Lemma remove_nonempty_witness :
  let a := mkNode "a" None None in
  let b := mkNode "b" (Some a) (Some "m") in
  QueueFrontier.remove (StackFrontier.mk [a; b]) = Ret (a, StackFrontier.mk [b])
  ∧ StackFrontier.remove (StackFrontier.mk [a; b]) = Ret (b, StackFrontier.mk [a])
  ∧ ((∃ n f', QueueFrontier.remove (StackFrontier.mk [a; b]) = Ret (n, f')
              ∧ [a; b] = n :: StackFrontier.frontier f')
     ∧ (∃ n f', StackFrontier.remove (StackFrontier.mk [a; b]) = Ret (n, f')
                ∧ [a; b] = StackFrontier.frontier f' ++ [n])).
Proof.
  intros a b. split; [reflexivity|]. split; [reflexivity|].
  apply (remove_nonempty (StackFrontier.mk [a; b])). reflexivity.
Defined.

(** X3. [contains_state] follows the contents of the frontier: a new
    frontier contains no state; after [add] the frontier contains the
    state of the added node and the states it contained before; and a
    frontier from which the queue [remove] took a node contained that
    node's state and the states that are left. *)
Theorem contains_state_add_remove :
  (∀ s, StackFrontier.contains_state StackFrontier.init s = false)
  ∧ (∀ (f : StackFrontier.t) n s,
       StackFrontier.contains_state (StackFrontier.add f n) s
       = StackFrontier.contains_state f s || String.eqb (state n) s)
  ∧ (∀ (f f' : QueueFrontier.t) n s,
       QueueFrontier.remove f = Ret (n, f') →
       QueueFrontier.contains_state f s
       = String.eqb (state n) s || QueueFrontier.contains_state f' s).
Proof.
  split; [done|]. split.
  - intros f n s. unfold StackFrontier.contains_state. simpl.
    rewrite existsb_app. simpl. by rewrite orb_false_r.
  - intros f f' n s Hrem%queue_remove_Ret.
    unfold QueueFrontier.contains_state, StackFrontier.contains_state.
    unfold QueueFrontier.frontier in Hrem. by rewrite Hrem.
Qed.

Lemma contains_state_add_remove_witness :
  let a := mkNode "a" None None in
  let b := mkNode "b" (Some a) (Some "m") in
  QueueFrontier.contains_state (StackFrontier.mk [a; b]) "b"
  = String.eqb (state a) "b" || QueueFrontier.contains_state (StackFrontier.mk [b]) "b".
Proof.
  intros a b.
  apply (proj2 (proj2 contains_state_add_remove) (StackFrontier.mk [a; b])
           (StackFrontier.mk [b]) a "b").
  reflexivity.
Defined.

(** ** neighbors_for_person, completely *)

(** X4. What [neighbors_for_person] does.  When it returns, the person is a
    key of [people], every movie of the person is a key of [movies], and the
    returned set holds exactly the pairs of a movie of the person and a
    star of that movie, whatever the order of iteration.  When it raises,
    the exception is [KeyError] for the person, who is not a key of
    [people], or [KeyError] for one of the person's movies that is not a
    key of [movies]. *)
Theorem neighbors_for_person_spec o st person_id :
  faithful o →
  match neighbors_for_person o st person_id with
  | Ret nb =>
      (∃ p, people st !! person_id = Some p
            ∧ ∀ m, m ∈ person_movies p → is_Some (movies st !! m))
      ∧ ∀ m w, (m, w) ∈ nb ↔ edge st person_id m w
  | Raise e =>
      (people st !! person_id = None ∧ e = KeyError person_id)
      ∨ ∃ p m, people st !! person_id = Some p ∧ m ∈ person_movies p
               ∧ movies st !! m = None ∧ e = KeyError m
  end.
Proof.
  intros Ho. destruct (neighbors_for_person o st person_id) as [nb|e] eqn:Hnb.
  - split; [|by apply (neighbors_Ret o Ho st)].
    destruct (people st !! person_id) as [p|] eqn:Hp.
    + exists p. split; [done|]. by apply (neighbors_Ret_known o Ho st person_id nb).
    + unfold neighbors_for_person, getitem in Hnb. by rewrite Hp in Hnb.
  - by apply (neighbors_Raise o Ho st).
Qed.

Lemma neighbors_for_person_spec_witness :
  ∃ nb, neighbors_for_person canonical_order fixture "2" = Ret nb
        ∧ ∀ m w, (m, w) ∈ nb ↔ edge fixture "2" m w.
Proof.
  pose proof (neighbors_for_person_spec canonical_order fixture "2"
                canonical_order_faithful) as Hspec.
  assert (match neighbors_for_person canonical_order fixture "2" with
          | Ret _ => True
          | Raise _ => False
          end) as Hret by (vm_compute; exact I).
  destruct (neighbors_for_person canonical_order fixture "2") as [nb|e].
  - exists nb. split; [reflexivity | exact (proj2 Hspec)].
  - destruct Hret.
Defined.

(** ** What shortest_path returns and raises on any store *)

(** X5. Whatever the store: a path that [shortest_path] returns is a walk
    from the source to the target whose length is the graph distance; and
    when [shortest_path] returns [None] for a target different from the
    source, the target is not reachable from the source. *)
Theorem shortest_path_sound o st fuel source_id target_id :
  faithful o →
  (∀ path, shortest_path o st fuel source_id target_id = Some (Ret (Some path)) →
     path_walk st source_id path target_id
     ∧ is_distance st source_id target_id (length path))
  ∧ (shortest_path o st fuel source_id target_id = Some (Ret None) →
     source_id ≠ target_id → ¬ reachable st source_id target_id).
Proof.
  intros Ho. split.
  - intros path Hsp.
    exact (bfs_result o Ho st source_id target_id fuel _ _ _
             (bfs_inv_start st source_id target_id) Hsp).
  - intros Hsp.
    exact (bfs_result o Ho st source_id target_id fuel _ _ _
             (bfs_inv_start st source_id target_id) Hsp).
Qed.

Lemma shortest_path_sound_witness :
  let path := [(Some "13", "5"); (Some "14", "6")] in
  path_walk fixture "1" path "6" ∧ is_distance fixture "1" "6" (length path).
Proof.
  intros path.
  apply (proj1 (shortest_path_sound canonical_order fixture 9 "1" "6"
                  canonical_order_faithful) path).
  vm_compute. reflexivity.
Defined.

Lemma rooted_source_or_star st source_id n :
  rooted st source_id n →
  state n = source_id
  ∨ ∃ m mv, movies st !! m = Some mv ∧ state n ∈ movie_stars mv.
Proof.
  destruct 1 as [|p m q _ (pp & mv & _ & _ & Hmv & Hin)]; [by left|].
  right. by exists m, mv.
Qed.

(** X6. [shortest_path] raises nothing but [KeyError], so the frontier
    never underflows; and it raises only for a source that is not a key of
    [people] or on a store that is not consistent. *)
Theorem shortest_path_raises_only_KeyError o st fuel source_id target_id e :
  faithful o →
  shortest_path o st fuel source_id target_id = Some (Raise e) →
  ∃ key, e = KeyError key
         ∧ ((key = source_id ∧ people st !! source_id = None) ∨ ¬ consistent st).
Proof.
  intros Ho Hsp.
  refine (search_inv o st target_id (bfs_inv st source_id target_id)
            (fun r => ∀ e, r = Raise e →
               ∃ key, e = KeyError key
                      ∧ ((key = source_id ∧ people st !! source_id = None)
                         ∨ ¬ consistent st))
            _ fuel (start_frontier source_id) ∅ (Raise e)
            (bfs_inv_start st source_id target_id) Hsp e eq_refl).
  intros fr ex Hinv. pose proof (bfs_step o Ho st source_id target_id fr ex Hinv) as Hstep.
  pose proof (iterate_spec o st target_id fr ex) as Hspec.
  destruct (iterate o st target_id fr ex) as [r|e0|fr' ex']; [done| |done].
  intros e1 [= <-]. destruct Hspec as (u & rest & Hf & Hnb).
  destruct Hinv as [Hshort _]. rewrite Hf in Hshort.
  apply Forall_cons in Hshort as [[Hroot _] _].
  apply (neighbors_Raise o Ho) in Hnb as [[Hnone ->]|(p & m & Hp & Hin & Hm & ->)].
  - exists (state u). split; [done|].
    destruct (rooted_source_or_star st source_id u Hroot) as [Heq|(m & mv & Hmv & Hin)].
    + left. by rewrite Heq in *.
    + right. intros [_ Hmp]. destruct (Hmp m mv Hmv (state u) Hin) as [p Hp]. congruence.
  - exists m. split; [done|]. right.
    intros [Hpm _]. destruct (Hpm (state u) p Hp m Hin) as [mv Hmv]. congruence.
Qed.

Lemma shortest_path_raises_only_KeyError_witness :
  ∃ key, KeyError "99" = KeyError key
         ∧ ((key = "1" ∧ people dangling !! "1" = None) ∨ ¬ consistent dangling).
Proof.
  apply (shortest_path_raises_only_KeyError canonical_order dangling 9 "1" "2"
           (KeyError "99") canonical_order_faithful).
  vm_compute. reflexivity.
Defined.

(** ** The order of iteration does not change the degrees *)

Lemma returned_path_distinct o st fuel source_id target_id path :
  faithful o →
  shortest_path o st fuel source_id target_id = Some (Ret (Some path)) →
  source_id ≠ target_id.
Proof.
  intros Ho Hsp ->.
  pose proof (bfs_result o Ho st target_id target_id fuel _ _ _
                (bfs_inv_start st target_id target_id) Hsp) as [_ [_ Hmin]].
  specialize (Hmin 0 (walk_here st target_id)).
  apply search_path_last in Hsp as (front & m & ->).
  rewrite length_app in Hmin. simpl in Hmin. lia.
Qed.

Lemma reversed_order_faithful : faithful reversed_order.
Proof. split; intros s; simpl; apply reverse_Permutation. Defined.

(** X7. On a consistent store and for a source that is a key of [people],
    two runs of [shortest_path] that iterate over the sets in different
    orders both return, and they agree on the outcome: both return [None]
    or both return paths of the same length. *)
Theorem degrees_independent_of_order o1 o2 st source_id target_id :
  faithful o1 → faithful o2 → consistent st → is_Some (people st !! source_id) →
  ∀ fuel, size (people st) < fuel →
    ∃ r1 r2,
      shortest_path o1 st fuel source_id target_id = Some (Ret r1)
      ∧ shortest_path o2 st fuel source_id target_id = Some (Ret r2)
      ∧ length <$> r1 = length <$> r2.
Proof.
  intros Ho1 Ho2 Hst Hs fuel Hfuel.
  destruct (shortest_path_returns o1 Ho1 st Hst source_id target_id fuel Hs Hfuel) as [r1 Hr1].
  destruct (shortest_path_returns o2 Ho2 st Hst source_id target_id fuel Hs Hfuel) as [r2 Hr2].
  exists r1, r2. split; [done|]. split; [done|].
  pose proof (bfs_result o1 Ho1 st source_id target_id fuel _ _ _
                (bfs_inv_start st source_id target_id) Hr1) as H1.
  pose proof (bfs_result o2 Ho2 st source_id target_id fuel _ _ _
                (bfs_inv_start st source_id target_id) Hr2) as H2.
  destruct r1 as [p1|], r2 as [p2|]; simpl; [|exfalso|exfalso|done].
  - destruct H1 as [_ [Hw1 Hmin1]], H2 as [_ [Hw2 Hmin2]].
    f_equal. apply Nat.le_antisymm; [by apply Hmin1 | by apply Hmin2].
  - destruct H1 as [_ [Hw1 _]].
    apply (H2 (returned_path_distinct o1 st fuel _ _ p1 Ho1 Hr1)). by exists (length p1).
  - destruct H2 as [_ [Hw2 _]].
    apply (H1 (returned_path_distinct o2 st fuel _ _ p2 Ho2 Hr2)). by exists (length p2).
Qed.

Lemma degrees_independent_of_order_witness :
  ∃ r1 r2,
    shortest_path canonical_order fixture 9 "4" "6" = Some (Ret r1)
    ∧ shortest_path reversed_order fixture 9 "4" "6" = Some (Ret r2)
    ∧ length <$> r1 = length <$> r2.
Proof.
  apply (degrees_independent_of_order canonical_order reversed_order fixture "4" "6"
           canonical_order_faithful reversed_order_faithful fixture_consistent).
  - vm_compute. eauto.
  - vm_compute. lia.
Defined.

(** ** What load_data puts into the tables *)

Lemma load_star_people st row :
  people (load_star st row)
  = match people st !! sr_person_id row with
    | Some p => <[sr_person_id row :=
                    mkPerson (person_name p) (person_birth p)
                             (person_movies p ∪ {[sr_movie_id row]})]> (people st)
    | None => people st
    end.
Proof.
  unfold load_star. destruct (people st !! sr_person_id row) as [p|]; [|done].
  simpl. by destruct (movies st !! sr_movie_id row).
Qed.

Lemma load_star_movies st row :
  movies (load_star st row)
  = match people st !! sr_person_id row, movies st !! sr_movie_id row with
    | Some _, Some mv => <[sr_movie_id row :=
                             mkMovie (movie_title mv) (movie_year mv)
                                     (movie_stars mv ∪ {[sr_person_id row]})]> (movies st)
    | _, _ => movies st
    end.
Proof.
  unfold load_star. destruct (people st !! sr_person_id row) as [p|]; [|done].
  simpl. by destruct (movies st !! sr_movie_id row).
Qed.

Lemma load_star_names st row : names (load_star st row) = names st.
Proof.
  unfold load_star. destruct (people st !! sr_person_id row) as [p|]; [|done].
  simpl. by destruct (movies st !! sr_movie_id row).
Qed.

Lemma load_star_people_keys st row k :
  is_Some (people (load_star st row) !! k) ↔ is_Some (people st !! k).
Proof.
  rewrite load_star_people. destruct (people st !! sr_person_id row) as [p|] eqn:Hp; [|done].
  rewrite lookup_insert_is_Some. split.
  - intros [<-|[_ ?]]; [by eexists | done].
  - intros ?. destruct (decide (sr_person_id row = k)); auto.
Qed.

Lemma load_star_movies_keys st row k :
  is_Some (movies (load_star st row) !! k) ↔ is_Some (movies st !! k).
Proof.
  rewrite load_star_movies. destruct (people st !! sr_person_id row) as [p|]; [|done].
  destruct (movies st !! sr_movie_id row) as [mv|] eqn:Hmv; [|done].
  rewrite lookup_insert_is_Some. split.
  - intros [<-|[_ ?]]; [by eexists | done].
  - intros ?. destruct (decide (sr_movie_id row = k)); auto.
Qed.

Lemma load_star_movies_of st row p m :
  m ∈ movies_of (load_star st row) p ↔
  m ∈ movies_of st p
  ∨ (is_Some (people st !! p) ∧ sr_person_id row = p ∧ sr_movie_id row = m).
Proof.
  unfold movies_of. rewrite load_star_people.
  destruct (people st !! sr_person_id row) as [per|] eqn:Hper.
  - destruct (decide (sr_person_id row = p)) as [<-|Hne].
    + rewrite lookup_insert_eq, Hper. simpl. rewrite elem_of_union, elem_of_singleton.
      split; [|intros [?|(_ & _ & ->)]; by auto].
      intros [?| ->]; [by left | right]. split; [by eexists | done].
    + rewrite lookup_insert_ne by done. split; [by left|]. by intros [?|(_ & ? & _)].
  - split; [by left|]. intros [?|([per Hp] & <- & _)]; [done | congruence].
Qed.

Lemma load_star_stars_of st row m p :
  p ∈ stars_of (load_star st row) m ↔
  p ∈ stars_of st m
  ∨ (is_Some (movies st !! m) ∧ is_Some (people st !! p)
     ∧ sr_person_id row = p ∧ sr_movie_id row = m).
Proof.
  unfold stars_of. rewrite load_star_movies.
  destruct (people st !! sr_person_id row) as [per|] eqn:Hper.
  - destruct (movies st !! sr_movie_id row) as [mv|] eqn:Hmv.
    + destruct (decide (sr_movie_id row = m)) as [<-|Hne].
      * rewrite lookup_insert_eq, Hmv. simpl. rewrite elem_of_union, elem_of_singleton.
        split; [|intros [?|(_ & _ & -> & _)]; by auto].
        intros [?| ->]; [by left | right]. rewrite Hper. by split_and!; try eexists.
      * rewrite lookup_insert_ne by done. split; [by left|]. by intros [?|(_ & _ & _ & ?)].
    + split; [by left|]. intros [?|([mv Hm] & _ & _ & <-)]; [done | congruence].
  - split; [by left|]. intros [?|(_ & [per Hp] & <- & _)]; [done | congruence].
Qed.

Lemma load_stars_spec (l : list stars_row) : ∀ st,
  let st' := foldl load_star st l in
  names st' = names st
  ∧ (∀ k, is_Some (people st' !! k) ↔ is_Some (people st !! k))
  ∧ (∀ k, is_Some (movies st' !! k) ↔ is_Some (movies st !! k))
  ∧ (∀ p m, m ∈ movies_of st' p ↔
        m ∈ movies_of st p
        ∨ (is_Some (people st !! p)
           ∧ ∃ row, row ∈ l ∧ sr_person_id row = p ∧ sr_movie_id row = m))
  ∧ (∀ m p, p ∈ stars_of st' m ↔
        p ∈ stars_of st m
        ∨ (is_Some (movies st !! m) ∧ is_Some (people st !! p)
           ∧ ∃ row, row ∈ l ∧ sr_person_id row = p ∧ sr_movie_id row = m)).
Proof.
  induction l as [|row l IH]; intros st; simpl.
  { split; [done|]. split; [done|]. split; [done|]. split.
    - intros p m. split; [by left|]. by intros [?|(_ & row & ?%elem_of_nil & _)].
    - intros m p. split; [by left|]. by intros [?|(_ & _ & row & ?%elem_of_nil & _)]. }
  destruct (IH (load_star st row)) as (Hn & Hp & Hm & Hmo & Hso).
  split; [by rewrite Hn, load_star_names|].
  split; [intros k; by rewrite Hp, load_star_people_keys|].
  split; [intros k; by rewrite Hm, load_star_movies_keys|]. split.
  - intros p m. rewrite Hmo, load_star_movies_of, load_star_people_keys. split.
    + intros [[?|(? & ? & ?)]|(? & row' & ? & ? & ?)]; [by left|right|right].
      * split; [done|]. exists row. split; [by left | done].
      * split; [done|]. exists row'. split; [by right | done].
    + intros [?|(? & row' & [->|?]%elem_of_cons & ? & ?)]; [by left; left|left; right|right];
        [done|]. split; [done|]. by exists row'.
  - intros m p. rewrite Hso, load_star_stars_of, load_star_people_keys, load_star_movies_keys.
    split.
    + intros [[?|(? & ? & ? & ?)]|(? & ? & row' & ? & ? & ?)]; [by left|right|right].
      * split; [done|]. split; [done|]. exists row. split; [by left | done].
      * split; [done|]. split; [done|]. exists row'. split; [by right | done].
    + intros [?|(? & ? & row' & [->|?]%elem_of_cons & ? & ?)];
        [by left; left|left; right|right]; [done|].
      split; [done|]. split; [done|]. by exists row'.
Qed.

(** The store after the loops over people.csv and movies.csv. *)
Lemma load_people_movies_spec people_csv movies_csv :
  let st2 := foldl load_movie (foldl load_person empty_store people_csv) movies_csv in
  names st2 = names (foldl load_person empty_store people_csv)
  ∧ (∀ k, is_Some (people st2 !! k) ↔ k ∈ map pr_id people_csv)
  ∧ (∀ k, is_Some (movies st2 !! k) ↔ k ∈ map mr_id movies_csv)
  ∧ (∀ p, movies_of st2 p = ∅)
  ∧ (∀ m, stars_of st2 m = ∅).
Proof.
  destruct (load_people_spec people_csv empty_store) as (Hp1 & Hp2 & Hp3).
  { intros k p. simpl. by rewrite lookup_empty. }
  set (st1 := foldl load_person empty_store people_csv) in *.
  destruct (load_movies_spec movies_csv st1) as (Hm1 & Hm2 & Hm3).
  { intros k mv. rewrite Hp2. simpl. by rewrite lookup_empty. }
  simpl. set (st2 := foldl load_movie st1 movies_csv) in *.
  assert (names st2 = names st1) as Hnames.
  { unfold st2. clear. generalize st1. induction movies_csv as [|row l IH]; intros st; [done|].
    simpl. by rewrite IH. }
  split; [done|]. split; [|split; [|split]].
  - intros k. rewrite Hm2, Hp3. simpl. rewrite lookup_empty. split; [|by auto].
    by intros [[? [=]]|?].
  - intros k. rewrite Hm3, Hp2. simpl. rewrite lookup_empty. split; [|by auto].
    by intros [[? [=]]|?].
  - intros p. unfold movies_of. rewrite Hm2.
    destruct (people st1 !! p) as [per|] eqn:Hper; [by eapply Hp1 | done].
  - intros m. unfold stars_of.
    destruct (movies st2 !! m) as [mv|] eqn:Hmv; [by eapply Hm1 | done].
Qed.

Lemma load_people_attrs (l : list people_row) : ∀ st k per,
  people (foldl load_person st l) !! k = Some per →
  people st !! k = Some per
  ∨ ∃ row, row ∈ l ∧ pr_id row = k
           ∧ person_name per = pr_name row ∧ person_birth per = pr_birth row.
Proof.
  induction l as [|row l IH]; intros st k per; simpl; [by left|].
  intros [Hk|(row' & ? & ?)]%IH.
  - unfold load_person in Hk. simpl in Hk.
    apply lookup_insert_Some in Hk as [[<- <-]|[_ ?]]; [|by left].
    right. exists row. split; [by left | done].
  - right. exists row'. split; [by right | done].
Qed.

Lemma load_stars_attrs (l : list stars_row) : ∀ st k per',
  people (foldl load_star st l) !! k = Some per' →
  ∃ per, people st !! k = Some per
         ∧ person_name per' = person_name per ∧ person_birth per' = person_birth per.
Proof.
  induction l as [|row l IH]; intros st k per'; simpl; [by exists per'|].
  intros (per1 & Hk & -> & ->)%IH. rewrite load_star_people in Hk.
  destruct (people st !! sr_person_id row) as [p|] eqn:Hp; [|by exists per1].
  apply lookup_insert_Some in Hk as [[<- <-]|[_ ?]]; [by exists p | by exists per1].
Qed.

(** The keys of the loaded tables are the ids of the files: a person
    id is a key of [people] exactly when a row of people.csv has it, and
    the entry carries the name and birth of such a row; a movie id is a
    key of [movies] exactly when a row of movies.csv has it.  The rows of
    stars.csv add no key. *)
Lemma loaded_keys people_csv movies_csv stars_csv :
  let st := load_data people_csv movies_csv stars_csv in
  (∀ k, is_Some (people st !! k) ↔ k ∈ map pr_id people_csv)
  ∧ (∀ k, is_Some (movies st !! k) ↔ k ∈ map mr_id movies_csv)
  ∧ (∀ k per, people st !! k = Some per →
       ∃ row, row ∈ people_csv ∧ pr_id row = k
              ∧ person_name per = pr_name row ∧ person_birth per = pr_birth row).
Proof.
  unfold load_data, load_data_from.
  destruct (load_people_movies_spec people_csv movies_csv) as (_ & Hp & Hm & _).
  destruct (load_stars_spec stars_csv
              (foldl load_movie (foldl load_person empty_store people_csv) movies_csv))
    as (_ & Hp' & Hm' & _).
  simpl. split; [|split]; [intros k; by rewrite Hp', Hp | intros k; by rewrite Hm', Hm |].
  intros k per' (per & Hk & -> & ->)%load_stars_attrs.
  destruct (load_movies_spec movies_csv (foldl load_person empty_store people_csv))
    as (_ & Hpeople & _).
  { intros k' mv. destruct (load_people_spec people_csv empty_store) as (_ & -> & _).
    - intros ? ?. simpl. by rewrite lookup_empty.
    - simpl. by rewrite lookup_empty. }
  simpl in Hpeople. rewrite Hpeople in Hk.
  apply load_people_attrs in Hk as [Hk|?]; [|done]. simpl in Hk. by rewrite lookup_empty in Hk.
Qed.

(** The contents of the loaded sets.  A movie id is in a person's set
    exactly when the person is in people.csv and a row of stars.csv pairs
    the two, whether or not the movie is in movies.csv.  A person id is in
    a movie's set exactly when the movie is in movies.csv, the person is in
    people.csv and a row of stars.csv pairs the two. *)
Lemma loaded_sets people_csv movies_csv stars_csv :
  let st := load_data people_csv movies_csv stars_csv in
  (∀ p m, m ∈ movies_of st p ↔
      p ∈ map pr_id people_csv
      ∧ ∃ row, row ∈ stars_csv ∧ sr_person_id row = p ∧ sr_movie_id row = m)
  ∧ (∀ m p, p ∈ stars_of st m ↔
      m ∈ map mr_id movies_csv ∧ p ∈ map pr_id people_csv
      ∧ ∃ row, row ∈ stars_csv ∧ sr_person_id row = p ∧ sr_movie_id row = m).
Proof.
  unfold load_data, load_data_from.
  destruct (load_people_movies_spec people_csv movies_csv) as (_ & Hp & Hm & Hmo & Hso).
  destruct (load_stars_spec stars_csv
              (foldl load_movie (foldl load_person empty_store people_csv) movies_csv))
    as (_ & _ & _ & Hmo' & Hso').
  simpl in *. split.
  - intros p m. rewrite Hmo', Hmo, Hp. set_solver.
  - intros m p. rewrite Hso', Hso, Hp, Hm. set_solver.
Qed.

(** X10. The loaded store is consistent exactly when no row of stars.csv
    names a person of people.csv together with a movie that is missing
    from movies.csv; a row that names an unknown person harms nothing. *)
Theorem load_data_consistent_iff people_csv movies_csv stars_csv :
  consistent (load_data people_csv movies_csv stars_csv)
  ↔ clean_stars people_csv movies_csv stars_csv.
Proof.
  split; [|apply load_data_consistent].
  intros [Hpm _]%consistent_alt.
  destruct (loaded_keys people_csv movies_csv stars_csv) as (Hp & Hm & _).
  destruct (loaded_sets people_csv movies_csv stars_csv) as (Hmo & _).
  simpl in *. apply Forall_forall. intros row Hrow Hperson.
  apply Hm. pose proof Hperson as [per Hper]%Hp.
  apply (Hpm (sr_person_id row) per); [done|].
  specialize (Hmo (sr_person_id row) (sr_movie_id row)).
  unfold movies_of in Hmo. rewrite Hper in Hmo. apply Hmo.
  split; [done|]. by exists row.
Qed.

Lemma load_data_edge_sym people_csv movies_csv stars_csv v m w :
  let st := load_data people_csv movies_csv stars_csv in
  edge st v m w → edge st w m v.
Proof.
  intros st (p & mv & Hp & Hm & Hmv & Hw).
  destruct (loaded_keys people_csv movies_csv stars_csv) as (Hkp & Hkm & _).
  destruct (loaded_sets people_csv movies_csv stars_csv) as (Hmo & Hso).
  fold st in Hkp, Hkm, Hmo, Hso.
  assert (m ∈ movies_of st v) as Hm' by (unfold movies_of; by rewrite Hp).
  assert (w ∈ stars_of st m) as Hw' by (unfold stars_of; by rewrite Hmv).
  apply Hmo in Hm' as (Hv & rowv & ? & ? & ?).
  apply Hso in Hw' as (Hmk & Hwk & roww & ? & ? & ?).
  assert (m ∈ movies_of st w) as Hm2 by (apply Hmo; split; [done | by exists roww]).
  assert (v ∈ stars_of st m) as Hv2
    by (apply Hso; split; [done|]; split; [done | by exists rowv]).
  unfold movies_of in Hm2. unfold stars_of in Hv2. rewrite Hmv in Hv2.
  destruct (people st !! w) as [pw|] eqn:Hpw; [|set_solver].
  by exists pw, mv.
Qed.

Lemma walk_reverse st :
  (∀ v m w, edge st v m w → edge st w m v) →
  ∀ u k v, walk st u k v → walk st v k u.
Proof.
  intros Hsym u k v. induction 1 as [|k v m w _ IH He]; [constructor|].
  apply (walk_prepend st w m v); [by apply Hsym | done].
Qed.

(** X11. In a loaded store the two tables mirror each other, so stepping
    from one person to another through a movie can be stepped back: the
    graph that [shortest_path] searches is undirected, and the distance
    from one person to another is the distance back. *)
Theorem load_data_undirected people_csv movies_csv stars_csv :
  let st := load_data people_csv movies_csv stars_csv in
  (∀ v m w, edge st v m w → edge st w m v)
  ∧ (∀ v w d, is_distance st v w d → is_distance st w v d).
Proof.
  intros st.
  assert (∀ v m w, edge st v m w → edge st w m v) as Hsym
    by apply load_data_edge_sym.
  split; [done|]. intros v w d [Hwalk Hmin]. split.
  - by apply walk_reverse.
  - intros k Hk. apply Hmin. by apply walk_reverse.
Qed.

(** X12. For files without a row of stars.csv that names a known person
    and an unknown movie, the degrees of separation are the same in both
    directions: [shortest_path a b] and [shortest_path b a] both return,
    and they return [None] together or paths of the same length. *)
Theorem degrees_symmetric o people_csv movies_csv stars_csv a b :
  faithful o → clean_stars people_csv movies_csv stars_csv →
  let st := load_data people_csv movies_csv stars_csv in
  is_Some (people st !! a) → is_Some (people st !! b) →
  ∀ fuel, size (people st) < fuel →
    ∃ r1 r2,
      shortest_path o st fuel a b = Some (Ret r1)
      ∧ shortest_path o st fuel b a = Some (Ret r2)
      ∧ length <$> r1 = length <$> r2.
Proof.
  intros Ho Hclean st Ha Hb fuel Hfuel.
  assert (consistent st) as Hst by by apply load_data_consistent.
  assert (∀ v m w, edge st v m w → edge st w m v) as Hsym
    by apply load_data_edge_sym.
  destruct (shortest_path_returns o Ho st Hst a b fuel Ha Hfuel) as [r1 Hr1].
  destruct (shortest_path_returns o Ho st Hst b a fuel Hb Hfuel) as [r2 Hr2].
  exists r1, r2. split; [done|]. split; [done|].
  pose proof (bfs_result o Ho st a b fuel _ _ _ (bfs_inv_start st a b) Hr1) as H1.
  pose proof (bfs_result o Ho st b a fuel _ _ _ (bfs_inv_start st b a) Hr2) as H2.
  destruct r1 as [p1|], r2 as [p2|]; simpl; [|exfalso|exfalso|done].
  - destruct H1 as [_ [Hw1 Hmin1]], H2 as [_ [Hw2 Hmin2]].
    f_equal. apply Nat.le_antisymm.
    + apply Hmin1. by apply walk_reverse.
    + apply Hmin2. by apply walk_reverse.
  - destruct H1 as [_ [Hw1 _]].
    apply H2; [|exists (length p1); by apply walk_reverse].
    intros Heq. by apply (returned_path_distinct o st fuel a b p1 Ho Hr1).
  - destruct H2 as [_ [Hw2 _]].
    apply H1; [|exists (length p2); by apply walk_reverse].
    intros Heq. by apply (returned_path_distinct o st fuel b a p2 Ho Hr2).
Qed.

Lemma degrees_symmetric_witness :
  ∃ r1 r2,
    shortest_path canonical_order
      (load_data fixture_people fixture_movies fixture_stars) 9 "4" "6" = Some (Ret r1)
    ∧ shortest_path canonical_order
        (load_data fixture_people fixture_movies fixture_stars) 9 "6" "4" = Some (Ret r2)
    ∧ length <$> r1 = length <$> r2.
Proof.
  apply (degrees_symmetric canonical_order fixture_people fixture_movies fixture_stars
           "4" "6" canonical_order_faithful fixture_clean).
  - vm_compute. eauto.
  - vm_compute. eauto.
  - vm_compute. lia.
Defined.

(** ** The names table *)





(** ** person_id_for_name, branch by branch *)











(** ** Looking up a loaded name *)






(** ** The main program *)












(** ** A person is a neighbour of their own *)

(** X21. [neighbors_for_person] does not leave the person out: on a loaded
    store, whenever it returns, the returned set pairs every movie of the
    person with the person's own id. *)
Theorem neighbors_include_self o people_csv movies_csv stars_csv person_id nb :
  faithful o →
  let st := load_data people_csv movies_csv stars_csv in
  neighbors_for_person o st person_id = Ret nb →
  ∀ m, m ∈ movies_of st person_id → (m, person_id) ∈ nb.
Proof.
  intros Ho st Hnb m Hm.
  apply (neighbors_Ret o Ho st person_id nb Hnb).
  destruct (loaded_sets people_csv movies_csv stars_csv) as (Hmo & Hso).
  fold st in Hmo, Hso.
  pose proof Hm as (Hperson & row & Hrow & Hp & Hmovie)%Hmo.
  unfold movies_of in Hm.
  destruct (people st !! person_id) as [p|] eqn:Hper; [|set_solver].
  destruct (neighbors_Ret_known o Ho st person_id nb p Hnb Hper m Hm) as [mv Hmv].
  exists p, mv. split; [done|]. split; [done|]. split; [done|].
  assert (person_id ∈ stars_of st m) as Hstar.
  { apply Hso. split; [|split; [done | by exists row]].
    apply (loaded_keys people_csv movies_csv stars_csv). by eexists. }
  unfold stars_of in Hstar. by rewrite Hmv in Hstar.
Qed.

Lemma neighbors_include_self_witness :
  ∃ nb, neighbors_for_person canonical_order
          (load_data fixture_people fixture_movies fixture_stars) "2" = Ret nb
        ∧ ("10", "2") ∈ nb.
Proof.
  destruct (neighbors_for_person canonical_order
              (load_data fixture_people fixture_movies fixture_stars) "2")
    as [nb|e] eqn:Hnb.
  - exists nb. split; [reflexivity|].
    apply (neighbors_include_self canonical_order fixture_people fixture_movies
             fixture_stars "2" nb canonical_order_faithful Hnb "10").
    apply (bool_decide_unpack _). vm_compute. exact I.
  - exfalso.
    assert (match neighbors_for_person canonical_order
                    (load_data fixture_people fixture_movies fixture_stars) "2" with
            | Ret _ => True
            | Raise _ => False
            end) as Hret by (vm_compute; exact I).
    by rewrite Hnb in Hret.
Defined.

(** ** The loaded tables, as a user reads them *)

(** X8. The keys of the loaded tables are the ids of the files: the keys of
    [people] are the ids of the rows of people.csv, and each entry carries
    the name and birth of a row with its id; the keys of [movies] are the
    ids of the rows of movies.csv.  The rows of stars.csv add no key, and
    no more entries are made than there are rows. *)
Theorem load_data_keys people_csv movies_csv stars_csv :
  let st := load_data people_csv movies_csv stars_csv in
  dom (people st) = list_to_set (map pr_id people_csv)
  ∧ dom (movies st) = list_to_set (map mr_id movies_csv)
  ∧ size (people st) ≤ length people_csv
  ∧ (∀ k per, people st !! k = Some per →
       ∃ row, row ∈ people_csv ∧ pr_id row = k
              ∧ person_name per = pr_name row ∧ person_birth per = pr_birth row).
Proof.
  intros st. destruct (loaded_keys people_csv movies_csv stars_csv) as (Hp & Hm & Hattr).
  fold st in Hp, Hm, Hattr.
  assert (dom (people st) = list_to_set (map pr_id people_csv)) as Hdom.
  { apply set_eq. intros k. by rewrite elem_of_dom, Hp, elem_of_list_to_set. }
  split; [done|]. split; [|split; [|done]].
  - apply set_eq. intros k. by rewrite elem_of_dom, Hm, elem_of_list_to_set.
  - rewrite <- size_dom, Hdom.
    rewrite <- (length_map pr_id people_csv). generalize (map pr_id people_csv).
    intros l. induction l as [|x l IH].
    + apply Nat.eq_le_incl. apply (size_empty (C:=gset string)).
    + change (size ({[x]} ∪ list_to_set l : gset string) ≤ S (length l)).
      pose proof (size_union_alt ({[x]} : gset string) (list_to_set l)) as Hu.
      pose proof (size_singleton (C:=gset string) x) as Hone.
      pose proof (subseteq_size (list_to_set l ∖ {[x]} : gset string) (list_to_set l)) as Hs.
      assert (list_to_set l ∖ {[x]} ⊆ (list_to_set l : gset string)) as Hsub by set_solver.
      specialize (Hs Hsub). lia.
Qed.

(** X9. The contents of the loaded sets.  A movie id is in a person's set
    exactly when the person is in people.csv and a row of stars.csv pairs
    the two, whether or not the movie is in movies.csv.  A person id is in
    a movie's set exactly when the movie is a key of [movies] and the
    movie id is in that person's set: the sets of the movies mirror the
    sets of the persons, restricted to the known movies. *)
Theorem load_data_sets people_csv movies_csv stars_csv :
  let st := load_data people_csv movies_csv stars_csv in
  (∀ p m, m ∈ movies_of st p ↔
      p ∈ map pr_id people_csv
      ∧ ∃ row, row ∈ stars_csv ∧ sr_person_id row = p ∧ sr_movie_id row = m)
  ∧ (∀ m p, p ∈ stars_of st m ↔ is_Some (movies st !! m) ∧ m ∈ movies_of st p).
Proof.
  intros st. destruct (loaded_sets people_csv movies_csv stars_csv) as (Hmo & Hso).
  destruct (loaded_keys people_csv movies_csv stars_csv) as (_ & Hm & _).
  fold st in Hmo, Hso, Hm. split; [done|].
  intros m p. rewrite Hso, Hmo, Hm. tauto.
Qed.

